(** * Investissement-scratch: the financial simulation engine of [app.py]

    A shallow embedding of the "fonctions métier" of [app.py]
    ([compound_growth], [annual_rate2mensual_rate], [monthly_repayment],
    [simulate_multi_cycle_strategy_detailed]) and of the cycle helpers
    ([add_cycle], [build_dca_cycles_from_lumpsum]), followed by the
    properties of the specification that they satisfy or miss.

    Numbers.  The Python program computes on [float]s and [int]s.  Amounts
    and rates (Python floats) are real numbers here, so every statement
    about them is a statement in exact arithmetic: binary64 rounding is not
    part of the model.  Durations in years come from integer form fields
    bounded below by 0 ([st.number_input(min_value=0, ...)]) and drive
    [range] and [max]: they are [nat].  Ages are [Z]. *)

From Stdlib Require Import Reals Lra Lia ZArith List Bool PeanoNat.
Import ListNotations.

Open Scope R_scope.

(** ** Python arithmetic used by the program *)

Module Py.

(** [int(x)] on a float: truncation toward zero. *)
Definition int (x : R) : Z :=
  if Rle_dec 0 x then Int_part x else (- Int_part (- x))%Z.

(** [x ** n] for an integer exponent (negative exponents give the inverse;
    Python raises on [0.0 ** n] with [n < 0], a case outside this model). *)
Definition pow_int (x : R) (n : Z) : R := powerRZ x n.

(** [x ** y] for a float exponent.  Faithful for [0 < x]: on a negative base
    Python leaves the reals (it returns a [complex]). *)
Definition pow_float (x y : R) : R := Rpower x y.

End Py.

(** ** Fonctions métier *)

(** [compound_growth(principal, monthly_rate, months=1)] *)
Definition compound_growth (principal monthly_rate : R) (months : Z) : R :=
  principal * Py.pow_int (1 + monthly_rate) months.

(** [annual_rate2mensual_rate(annual_rate)] *)
Definition annual_rate2mensual_rate (annual_rate : R) : R :=
  Py.pow_float (1 + annual_rate) (1 / 12) - 1.

(** [monthly_repayment(principal, annual_interest_rate, years)] *)
Definition monthly_repayment (principal annual_interest_rate years : R) : R :=
  let monthly_interest_rate := annual_rate2mensual_rate annual_interest_rate in
  let n_months := Py.int (years * 12) in
  if (n_months =? 0)%Z then 0
  else if Req_dec_T monthly_interest_rate 0 then principal / IZR n_months
  else
    let numerator :=
      monthly_interest_rate * Py.pow_int (1 + monthly_interest_rate) n_months in
    let denominator := Py.pow_int (1 + monthly_interest_rate) n_months - 1 in
    principal * (numerator / denominator).

(** ** Data model *)

(** A cycle dictionary, with the keys of [add_cycle]. *)
Record Cycle : Type := mkCycle {
  loan_amount : R;
  loan_interest_rate : R;
  loan_repayment_years : nat;
  monthly_contribution : R;
  contribution_years : nat;
  m_repayment : R
}.

(** One entry of [annual_details]. *)
Record YearRecord : Type := mkYearRecord {
  year_index : nat;
  age_end : Z;
  portfolio_before : R;
  out_of_pocket_year : R;
  portfolio_after : R;
  roi_year : R;
  delta_year : R;
  net_gains_end_of_year : R
}.

(** The local variables of [simulate_multi_cycle_strategy_detailed] that
    live across loop iterations. *)
Record SimState : Type := mkSimState {
  total_portfolio : R;
  total_external_investment : R;
  current_age : Z;
  ages : list Z;
  net_gains_annual : list R;
  annual_details : list YearRecord
}.

(** The returned tuple
    [(ages, net_gains_annual, final_portfolio, final_net_gains, annual_details)]. *)
Record SimulationResult : Type := mkResult {
  res_ages : list Z;
  res_net_gains_annual : list R;
  final_portfolio : R;
  final_net_gains : R;
  res_annual_details : list YearRecord
}.

(** ** The simulator *)

Definition cycle_length_years (c : Cycle) : nat :=
  Nat.max (loan_repayment_years c) (contribution_years c).

(** Body of [for _ in range(12)], on the pair
    [(total_portfolio, out_of_pocket_year)]. *)
Definition month_step (monthly_investment_rate : R) (c : Cycle) (yi : nat)
    (s : R * R) : R * R :=
  let '(tp, oop) := s in
  let oop :=
    if (yi <? loan_repayment_years c)%nat then oop + m_repayment c else oop in
  let '(tp, oop) :=
    if (yi <? contribution_years c)%nat
    then (tp + monthly_contribution c, oop + monthly_contribution c)
    else (tp, oop) in
  (compound_growth tp monthly_investment_rate 1, oop).

(** The twelve months of one year, from [out_of_pocket_year = 0.0]. *)
Definition run_months (rate : R) (c : Cycle) (yi : nat) (tp : R) : R * R :=
  Nat.iter 12 (month_step rate c yi) (tp, 0).

(** The dictionary appended to [annual_details] at the end of year [yi]. *)
Definition year_record (rate : R) (c : Cycle) (st : SimState) (yi : nat)
    : YearRecord :=
  let portfolio_before := total_portfolio st in
  let '(tp, out_of_pocket_year) := run_months rate c yi portfolio_before in
  let tei := total_external_investment st + out_of_pocket_year in
  let portfolio_after := tp in
  let roi_year := (portfolio_after - portfolio_before) - out_of_pocket_year in
  let net_gains_end_of_year := tp - tei in
  let age := (current_age st + 1)%Z in
  {| year_index := length (ages st ++ [age]);
     age_end := age;
     portfolio_before := portfolio_before;
     out_of_pocket_year := out_of_pocket_year;
     portfolio_after := portfolio_after;
     roi_year := roi_year;
     delta_year := roi_year - out_of_pocket_year;
     net_gains_end_of_year := net_gains_end_of_year |}.

(** Body of [for year_index in range(cycle_length_years)]. *)
Definition year_step (rate : R) (c : Cycle) (st : SimState) (yi : nat)
    : SimState :=
  let r := year_record rate c st yi in
  {| total_portfolio := portfolio_after r;
     total_external_investment :=
       total_external_investment st + out_of_pocket_year r;
     current_age := age_end r;
     ages := ages st ++ [age_end r];
     net_gains_annual := net_gains_annual st ++ [net_gains_end_of_year r];
     annual_details := annual_details st ++ [r] |}.

(** [total_portfolio += loan_amount] at the head of the cycle loop. *)
Definition invest_loan (st : SimState) (c : Cycle) : SimState :=
  {| total_portfolio := total_portfolio st + loan_amount c;
     total_external_investment := total_external_investment st;
     current_age := current_age st;
     ages := ages st;
     net_gains_annual := net_gains_annual st;
     annual_details := annual_details st |}.

(** Body of [for cycle in strategy_cycles]. *)
Definition cycle_step (rate : R) (st : SimState) (c : Cycle) : SimState :=
  fold_left (year_step rate c) (seq 0 (cycle_length_years c)) (invest_loan st c).

Definition init_state (start_age : Z) : SimState :=
  {| total_portfolio := 0;
     total_external_investment := 0;
     current_age := start_age;
     ages := [];
     net_gains_annual := [];
     annual_details := [] |}.

Definition run_cycles (rate : R) (st : SimState) (cs : list Cycle) : SimState :=
  fold_left (cycle_step rate) cs st.

(** [simulate_multi_cycle_strategy_detailed(strategy_cycles,
    annual_investment_rate, start_age)] *)
Definition simulate_multi_cycle_strategy_detailed
    (strategy_cycles : list Cycle) (annual_investment_rate : R) (start_age : Z)
    : SimulationResult :=
  let monthly_investment_rate := annual_rate2mensual_rate annual_investment_rate in
  let st := run_cycles monthly_investment_rate (init_state start_age) strategy_cycles in
  let final_portfolio := total_portfolio st in
  {| res_ages := ages st;
     res_net_gains_annual := net_gains_annual st;
     final_portfolio := final_portfolio;
     final_net_gains := final_portfolio - total_external_investment st;
     res_annual_details := annual_details st |}.

(** ** Cycle lists of the session *)

(** [st.session_state], restricted to the two cycle lists. *)
Record Session : Type := mkSession {
  scenario1_cycles : list Cycle;
  scenario2_cycles : list Cycle
}.

(** [add_cycle(scenario_cycles, ...)]: the list after the [append].  The
    duration is an [int]; [monthly_repayment] receives it as a number. *)
Definition add_cycle (scenario_cycles : list Cycle)
    (loan_amount loan_interest_rate : R) (loan_repayment_years : nat)
    (monthly_contribution : R) (contribution_years : nat) : list Cycle :=
  let m_repay :=
    monthly_repayment loan_amount loan_interest_rate (INR loan_repayment_years) in
  scenario_cycles ++
    [ {| loan_amount := loan_amount;
         loan_interest_rate := loan_interest_rate;
         loan_repayment_years := loan_repayment_years;
         monthly_contribution := monthly_contribution;
         contribution_years := contribution_years;
         m_repayment := m_repay |} ].

(** The [dca_cycle] dictionary built for a cycle [c] of scenario 1. *)
Definition dca_cycle (c : Cycle) : Cycle :=
  let cycle_length_years :=
    Nat.max (loan_repayment_years c) (contribution_years c) in
  {| loan_amount := 0;
     loan_interest_rate := 0;
     loan_repayment_years := 0;
     monthly_contribution := m_repayment c;
     contribution_years := cycle_length_years;
     m_repayment := 0 |}.

(** [build_dca_cycles_from_lumpsum()]: resets [scenario2_cycles] and appends
    one mirror cycle per cycle of [scenario1_cycles]. *)
Definition build_dca_cycles_from_lumpsum (ss : Session) : Session :=
  {| scenario1_cycles := scenario1_cycles ss;
     scenario2_cycles :=
       fold_left (fun acc c => acc ++ [dca_cycle c]) (scenario1_cycles ss) [] |}.

(** ** Vocabulary of the specification *)

(** Sum of a list of amounts. *)
Definition Rsum (l : list R) : R := fold_right Rplus 0 l.

(** Number of simulated years of a strategy. *)
Definition total_years (cs : list Cycle) : nat :=
  list_sum (map cycle_length_years cs).

(** Borrowed principal of a run of cycles. *)
Definition loan_sum (cs : list Cycle) : R := Rsum (map loan_amount cs).

(** Position of the [i]-th simulated year (0-based, global): the index of
    the cycle it belongs to and the year index inside that cycle. *)
Fixpoint locate (cs : list Cycle) (i : nat) : option (nat * nat) :=
  match cs with
  | [] => None
  | c :: cs' =>
      if (i <? cycle_length_years c)%nat then Some (0%nat, i)
      else option_map (fun p => (S (fst p), snd p))
                      (locate cs' (i - cycle_length_years c))
  end.

Definition cycle_of (cs : list Cycle) (i : nat) : option nat :=
  option_map fst (locate cs i).

(** The three monthly operations as the specification words them, on the
    pair [(portfolio, out_of_pocket_year)]. *)
Module Spec.

Definition repay (c : Cycle) (y : nat) (s : R * R) : R * R :=
  if (y <? loan_repayment_years c)%nat
  then (fst s, snd s + m_repayment c) else s.

Definition contribute (c : Cycle) (y : nat) (s : R * R) : R * R :=
  if (y <? contribution_years c)%nat
  then (fst s + monthly_contribution c, snd s + monthly_contribution c) else s.

Definition grow (monthly_rate : R) (s : R * R) : R * R :=
  (fst s * (1 + monthly_rate), snd s).

Definition month (monthly_rate : R) (c : Cycle) (y : nat) (s : R * R) : R * R :=
  grow monthly_rate (contribute c y (repay c y s)).

End Spec.

(** Records appended by the year loop of one cycle, in order. *)
Fixpoint emit_years (rate : R) (c : Cycle) (st : SimState) (ys : list nat)
    : list YearRecord :=
  match ys with
  | [] => []
  | y :: ys' =>
      year_record rate c st y :: emit_years rate c (year_step rate c st y) ys'
  end.

Definition emit_cycle (rate : R) (st : SimState) (c : Cycle) : list YearRecord :=
  emit_years rate c (invest_loan st c) (seq 0 (cycle_length_years c)).

(** Records appended by the cycle loop, in order. *)
Fixpoint emit_cycles (rate : R) (st : SimState) (cs : list Cycle)
    : list YearRecord :=
  match cs with
  | [] => []
  | c :: cs' => emit_cycle rate st c ++ emit_cycles rate (cycle_step rate st c) cs'
  end.

(** The records of cycle number [k] inside the global sequence, and the
    cash they take out of pocket. *)
Definition cycle_records (cs : list Cycle) (details : list YearRecord) (k : nat)
    : list YearRecord :=
  firstn (cycle_length_years (nth k cs (mkCycle 0 0 0 0 0 0)))
         (skipn (total_years (firstn k cs)) details).

Definition cycle_out_of_pocket (cs : list Cycle) (annual_rate : R) (start_age : Z)
    (k : nat) : R :=
  Rsum (map out_of_pocket_year
          (cycle_records cs
             (res_annual_details
                (simulate_multi_cycle_strategy_detailed cs annual_rate start_age))
             k)).

(** Values of [(total_portfolio, total_external_investment,
    out_of_pocket_year)] after each monthly step. *)
Fixpoint iter_trace {A : Type} (f : A -> A) (n : nat) (x : A) : list A :=
  match n with
  | O => []
  | S n' => f x :: iter_trace f n' (f x)
  end.

Definition snapshots_year (rate : R) (c : Cycle) (st : SimState) (yi : nat)
    : list (R * R * R) :=
  map (fun s => (fst s, total_external_investment st, snd s))
      (iter_trace (month_step rate c yi) 12 (total_portfolio st, 0)).

Fixpoint snapshots_years (rate : R) (c : Cycle) (st : SimState) (ys : list nat)
    : list (R * R * R) :=
  match ys with
  | [] => []
  | y :: ys' =>
      snapshots_year rate c st y
        ++ snapshots_years rate c (year_step rate c st y) ys'
  end.

Fixpoint snapshots_cycles (rate : R) (st : SimState) (cs : list Cycle)
    : list (R * R * R) :=
  match cs with
  | [] => []
  | c :: cs' =>
      snapshots_years rate c (invest_loan st c) (seq 0 (cycle_length_years c))
        ++ snapshots_cycles rate (cycle_step rate st c) cs'
  end.

Definition monthly_snapshots (cs : list Cycle) (annual_rate : R) (start_age : Z)
    : list (R * R * R) :=
  snapshots_cycles (annual_rate2mensual_rate annual_rate) (init_state start_age) cs.

(** What one month of year [y] of cycle [c] takes out of pocket. *)
Definition monthly_cash (c : Cycle) (y : nat) : R :=
  (if (y <? loan_repayment_years c)%nat then m_repayment c else 0)
  + (if (y <? contribution_years c)%nat then monthly_contribution c else 0).

(** Cash injected up to the end of the year of a record: the
    [total_external_investment] that its [net_gains_end_of_year] was
    computed from. *)
Definition cumulative_injected (r : YearRecord) : R :=
  portfolio_after r - net_gains_end_of_year r.

(** Amounts of a cycle that the form bounds below by 0. *)
Definition cycle_nonneg (c : Cycle) : Prop :=
  0 <= loan_amount c /\ 0 <= monthly_contribution c /\ 0 <= m_repayment c.

(** The scenario 2 that [build_dca_cycles_from_lumpsum] derives from a
    scenario 1 (the previous content of [scenario2_cycles] is discarded). *)
Definition dca_mirror (scenario1 : list Cycle) : list Cycle :=
  scenario2_cycles (build_dca_cycles_from_lumpsum (mkSession scenario1 [])).

(** ** Scenarios used as test cases, entered through [add_cycle] *)

(** A year of 100 per month, then a cycle that borrows 1000 and keeps
    contributing 100 per month for a year. *)
Definition save_then_borrow : list Cycle :=
  add_cycle (add_cycle [] 0 0 0 100 1) 1000 0 0 100 1.

(** No loan, 100 per month for one year. *)
Definition contribution_only : list Cycle := add_cycle [] 0 0 0 100 1.

(** 1000 borrowed, no repayment period and no contribution period. *)
Definition zero_duration : list Cycle := add_cycle [] 1000 0 0 0 0.

(** 100000 borrowed at 6% over 20 years, no contribution. *)
Definition loan_only : list Cycle := add_cycle [] 100000 (6 / 100) 20 0 0.

(** ** Editing the cycle lists *)

(** [update_cycle(scenario_cycles, index, ...)]: the list after
    [scenario_cycles[index] = {...}], or [None] for the [IndexError] that the
    assignment raises past the end of the list.  [index] comes from
    [enumerate]. *)
Definition update_cycle (scenario_cycles : list Cycle) (index : nat)
    (loan_amount loan_interest_rate : R) (loan_repayment_years : nat)
    (monthly_contribution : R) (contribution_years : nat)
    : option (list Cycle) :=
  let m_repay :=
    monthly_repayment loan_amount loan_interest_rate (INR loan_repayment_years) in
  if (index <? length scenario_cycles)%nat then
    Some (firstn index scenario_cycles
          ++ {| loan_amount := loan_amount;
                loan_interest_rate := loan_interest_rate;
                loan_repayment_years := loan_repayment_years;
                monthly_contribution := monthly_contribution;
                contribution_years := contribution_years;
                m_repayment := m_repay |}
             :: skipn (S index) scenario_cycles)
  else None.

(** [scenario_cycles.pop(i)] of [display_cycles] ("Supprimer"): the list
    left, or [None] for the [IndexError]. *)
Definition pop_cycle (scenario_cycles : list Cycle) (i : nat)
    : option (list Cycle) :=
  if (i <? length scenario_cycles)%nat
  then Some (firstn i scenario_cycles ++ skipn (S i) scenario_cycles)
  else None.

(** The derived key of a cycle dictionary is the payment of its loan. *)
Definition repayment_consistent (c : Cycle) : Prop :=
  m_repayment c
  = monthly_repayment (loan_amount c) (loan_interest_rate c)
                      (INR (loan_repayment_years c)).

(** Bounds that the number inputs of [cycle_form] put on a cycle. *)
Definition within_form_bounds (c : Cycle) : Prop :=
  0 <= loan_amount c /\ 0 <= loan_interest_rate c <= 1
  /\ 0 <= monthly_contribution c
  /\ (loan_repayment_years c <= 40)%nat /\ (contribution_years c <= 40)%nat.

(** What one month of year [y] of cycle [c] adds to the portfolio. *)
Definition contribution_of (c : Cycle) (y : nat) : R :=
  if (y <? contribution_years c)%nat then monthly_contribution c else 0.

(** Cash that a whole cycle takes out of pocket. *)
Definition cycle_cash (c : Cycle) : R :=
  12 * INR (loan_repayment_years c) * m_repayment c
  + 12 * INR (contribution_years c) * monthly_contribution c.

(** Value at the end of a year of a unit contributed at the start of each
    of its twelve months: [(1+m) + (1+m)^2 + ... + (1+m)^12]. *)
Definition annuity_factor (monthly_rate : R) : R :=
  Rsum (map (fun j => (1 + monthly_rate) ^ j) (seq 1 12)).

(** ** The "Simuler les deux scénarios" block *)

(** Names that the block may leave unbound. *)
Inductive Name : Type := annual_details_s1 | annual_details_s2.

Inductive PyError : Type := NameError (name : Name).

(** The five names bound for one scenario; [annual_details] is bound by the
    simulation only, the [else] branch binds the four others. *)
Record Bindings : Type := mkBindings {
  b_ages : list Z;
  b_net_gains : list R;
  b_final_portfolio : R;
  b_final_net_gains : R;
  b_annual_details : option (list YearRecord)
}.

(** [if st.session_state.scenarioN_cycles: ... else: ...] *)
Definition scenario_bindings (cycles : list Cycle) (annual_rate : R)
    (start_age : Z) : Bindings :=
  match cycles with
  | [] => mkBindings [] [] 0 0 None
  | _ :: _ =>
      let res := simulate_multi_cycle_strategy_detailed cycles annual_rate start_age in
      mkBindings (res_ages res) (res_net_gains_annual res) (final_portfolio res)
                 (final_net_gains res) (Some (res_annual_details res))
  end.

(** The argument of [round(..., 2)] for "Total injecté". *)
Definition injected (b : Bindings) : R :=
  b_final_portfolio b - b_final_net_gains b.

(** The two lists handed to [pd.DataFrame] at the end of the block, in the
    order the block reads them. *)
Definition detail_tables (ss : Session) (rate1 : R) (age1 : Z) (rate2 : R)
    (age2 : Z) : PyError + list YearRecord * list YearRecord :=
  match b_annual_details (scenario_bindings (scenario1_cycles ss) rate1 age1) with
  | None => inl (NameError annual_details_s1)
  | Some d1 =>
      match b_annual_details (scenario_bindings (scenario2_cycles ss) rate2 age2) with
      | None => inl (NameError annual_details_s2)
      | Some d2 => inr (d1, d2)
      end
  end.

(** ** Financial math *)

Lemma pow_int_1 (x : R) : Py.pow_int x 1 = x.
Proof. unfold Py.pow_int. simpl. lra. Qed.

Lemma compound_growth_1 (p r : R) : compound_growth p r 1 = p * (1 + r).
Proof. unfold compound_growth. now rewrite pow_int_1. Qed.

Lemma pow_float_twelfth_pow (x : R) :
  0 < x -> Py.pow_int (Py.pow_float x (1 / 12)) 12 = x.
Proof.
  intros Hx. unfold Py.pow_int, Py.pow_float.
  rewrite <- (pow_powerRZ _ 12).
  rewrite <- Rpower_pow by apply exp_pos.
  rewrite Rpower_mult.
  replace (1 / 12 * INR 12) with 1 by (simpl; field).
  now apply Rpower_1.
Qed.

Lemma monthly_rate_of_zero : annual_rate2mensual_rate 0 = 0.
Proof.
  unfold annual_rate2mensual_rate, Py.pow_float, Rpower.
  rewrite Rplus_0_r, ln_1, Rmult_0_r, exp_0. lra.
Qed.

Lemma monthly_rate_nonneg (a : R) : 0 <= a -> 0 <= annual_rate2mensual_rate a.
Proof.
  intros Ha. unfold annual_rate2mensual_rate, Py.pow_float.
  assert (H : Rpower (1 + a) 0 <= Rpower (1 + a) (1 / 12))
    by (apply Rle_Rpower; lra).
  rewrite Rpower_O in H by lra. lra.
Qed.

Lemma monthly_rate_zero_iff (a : R) :
  -1 < a -> (annual_rate2mensual_rate a = 0 <-> a = 0).
Proof.
  intros Ha. split.
  - intros H.
    assert (E : Py.pow_float (1 + a) (1 / 12) = 1)
      by (unfold annual_rate2mensual_rate in H; lra).
    pose proof (pow_float_twelfth_pow (1 + a) ltac:(lra)) as P.
    rewrite E in P. unfold Py.pow_int in P. simpl in P. lra.
  - intros ->. apply monthly_rate_of_zero.
Qed.

(** [int] is the floor on non-negative numbers. *)
Lemma py_int_floor (x : R) : 0 <= x -> Py.int x = Int_part x.
Proof. intros Hx. unfold Py.int. destruct (Rle_dec 0 x); [reflexivity | lra]. Qed.

Lemma py_int_IZR (z : Z) : Py.int (IZR z) = z.
Proof.
  unfold Py.int. destruct (Rle_dec 0 (IZR z)).
  - symmetry. apply Int_part_spec. lra.
  - rewrite <- opp_IZR.
    rewrite <- (Int_part_spec (IZR (- z)) (- z)%Z) by lra. lia.
Qed.

Lemma py_int_months_of_years (k : nat) :
  Py.int (INR k * 12) = Z.of_nat (12 * k).
Proof.
  replace (INR k * 12) with (IZR (Z.of_nat (12 * k))).
  - apply py_int_IZR.
  - rewrite <- INR_IZR_INZ, mult_INR. simpl. lra.
Qed.

(** Below zero [int] rounds up, unlike the floor: [int(-0.6) = 0]. *)
Lemma py_int_truncates (x : R) : -1 < x < 0 -> Py.int x = 0%Z.
Proof.
  intros Hx. unfold Py.int. destruct (Rle_dec 0 x); [lra|].
  rewrite <- (Int_part_spec (- x) 0) by lra. reflexivity.
Qed.

(** ** The loops, unfolded *)

Section Loops.

Variable rate : R.

Lemma month_step_spec (c : Cycle) (y : nat) (s : R * R) :
  month_step rate c y s = Spec.month rate c y s.
Proof.
  destruct s as [tp oop].
  unfold month_step, Spec.month, Spec.grow, Spec.contribute, Spec.repay.
  destruct (y <? loan_repayment_years c)%nat,
           (y <? contribution_years c)%nat;
    simpl; now rewrite compound_growth_1.
Qed.

Lemma iter_ext {A : Type} (f g : A -> A) (n : nat) (x : A) :
  (forall a, f a = g a) -> Nat.iter n f x = Nat.iter n g x.
Proof. intros E. induction n as [|n IH]; simpl; [reflexivity | now rewrite IH, E]. Qed.

(** Fields of the record of a year, in terms of the state at its start. *)
Lemma year_record_fields (c : Cycle) (st : SimState) (y : nat) :
  let r := year_record rate c st y in
  portfolio_before r = total_portfolio st
  /\ (portfolio_after r, out_of_pocket_year r)
     = run_months rate c y (total_portfolio st)
  /\ roi_year r = (portfolio_after r - portfolio_before r) - out_of_pocket_year r
  /\ delta_year r = roi_year r - out_of_pocket_year r
  /\ net_gains_end_of_year r
     = portfolio_after r - (total_external_investment st + out_of_pocket_year r)
  /\ age_end r = (current_age st + 1)%Z
  /\ year_index r = S (length (ages st)).
Proof.
  unfold year_record.
  destruct (run_months rate c y (total_portfolio st)) as [tp oop]. simpl.
  rewrite length_app. simpl. repeat split; try reflexivity. lia.
Qed.

Lemma details_years (c : Cycle) (ys : list nat) (st : SimState) :
  annual_details (fold_left (year_step rate c) ys st)
  = annual_details st ++ emit_years rate c st ys.
Proof.
  revert st. induction ys as [|y ys IH]; intros st; simpl.
  - now rewrite app_nil_r.
  - rewrite IH. simpl. now rewrite <- app_assoc.
Qed.

Lemma details_cycle_step (st : SimState) (c : Cycle) :
  annual_details (cycle_step rate st c)
  = annual_details st ++ emit_cycle rate st c.
Proof. unfold cycle_step. now rewrite details_years. Qed.

Lemma details_cycles (cs : list Cycle) (st : SimState) :
  annual_details (run_cycles rate st cs)
  = annual_details st ++ emit_cycles rate st cs.
Proof.
  unfold run_cycles. revert st. induction cs as [|c cs IH]; intros st; simpl.
  - now rewrite app_nil_r.
  - now rewrite IH, details_cycle_step, <- app_assoc.
Qed.

Lemma length_emit_years (c : Cycle) (ys : list nat) (st : SimState) :
  length (emit_years rate c st ys) = length ys.
Proof. revert st. induction ys; intros; simpl; auto. Qed.

Lemma length_emit_cycle (st : SimState) (c : Cycle) :
  length (emit_cycle rate st c) = cycle_length_years c.
Proof. unfold emit_cycle. now rewrite length_emit_years, length_seq. Qed.

Lemma length_emit_cycles (cs : list Cycle) (st : SimState) :
  length (emit_cycles rate st cs) = total_years cs.
Proof.
  revert st. induction cs as [|c cs IH]; intros st; simpl; [reflexivity|].
  rewrite length_app, length_emit_cycle, IH. reflexivity.
Qed.

Lemma firstn_snoc {A : Type} (l : list A) (j : nat) (x : A) :
  nth_error l j = Some x -> firstn (S j) l = firstn j l ++ [x].
Proof.
  revert j. induction l as [|a l IH]; intros [|j] H; try discriminate.
  - now injection H as ->.
  - simpl in H. change (a :: firstn (S j) l = a :: (firstn j l ++ [x])).
    now rewrite (IH j H).
Qed.

(** The [j]-th record of a year loop is the record of year [nth j ys],
    taken on the state reached after the first [j] years. *)
Lemma emit_years_nth (c : Cycle) (ys : list nat) (st : SimState) (j : nat) :
  nth_error (emit_years rate c st ys) j
  = option_map
      (year_record rate c (fold_left (year_step rate c) (firstn j ys) st))
      (nth_error ys j).
Proof.
  revert st j. induction ys as [|y ys IH]; intros st [|j]; simpl; try reflexivity.
  apply IH.
Qed.

(** First record of a year loop. *)
Lemma emit_years_head (c : Cycle) (ys : list nat) (st : SimState) (r : YearRecord) :
  nth_error (emit_years rate c st ys) 0 = Some r ->
  portfolio_before r = total_portfolio st
  /\ portfolio_after r - net_gains_end_of_year r
     = total_external_investment st + out_of_pocket_year r.
Proof.
  rewrite emit_years_nth. destruct (nth_error ys 0) as [y|]; [|discriminate].
  simpl. intros [= <-].
  destruct (year_record_fields c st y) as (Hb & _ & _ & _ & Hn & _).
  split; [exact Hb | rewrite Hn; lra].
Qed.

(** Consecutive records of a year loop. *)
Lemma emit_years_succ (c : Cycle) (ys : list nat) (st : SimState) (j : nat)
    (r : YearRecord) :
  nth_error (emit_years rate c st ys) (S j) = Some r ->
  exists r', nth_error (emit_years rate c st ys) j = Some r'
    /\ portfolio_before r = portfolio_after r'
    /\ portfolio_after r - net_gains_end_of_year r
       = (portfolio_after r' - net_gains_end_of_year r') + out_of_pocket_year r.
Proof.
  rewrite !emit_years_nth.
  destruct (nth_error ys (S j)) as [y|] eqn:Ey; [|discriminate].
  assert (Hj : nth_error ys j <> None)
    by (apply nth_error_Some; apply Nat.lt_le_incl, nth_error_Some; congruence).
  destruct (nth_error ys j) as [y'|] eqn:Ey'; [|congruence].
  rewrite (firstn_snoc _ _ _ Ey'), fold_left_app.
  cbn [option_map fold_left]. intros [= <-]. eexists; split; [reflexivity|].
  set (s := fold_left (year_step rate c) (firstn j ys) st).
  destruct (year_record_fields c (year_step rate c s y') y)
    as (Hb & _ & _ & _ & Hn & _).
  destruct (year_record_fields c s y') as (_ & _ & _ & _ & Hn' & _).
  rewrite Hb, Hn, Hn'. simpl. split; lra.
Qed.

(** State left by a year loop that ran at least once. *)
Lemma state_after_years (c : Cycle) (ys : list nat) (st : SimState) (n : nat)
    (r : YearRecord) :
  length ys = S n ->
  nth_error (emit_years rate c st ys) n = Some r ->
  let st' := fold_left (year_step rate c) ys st in
  total_portfolio st' = portfolio_after r
  /\ total_external_investment st'
     = portfolio_after r - net_gains_end_of_year r.
Proof.
  intros Hlen. rewrite emit_years_nth.
  destruct (nth_error ys n) as [y|] eqn:Ey; [|discriminate].
  cbn [option_map]. intros [= <-].
  assert (E : ys = firstn n ys ++ [y]).
  { rewrite <- (firstn_snoc _ _ _ Ey), firstn_all2; [reflexivity | lia]. }
  set (s := fold_left (year_step rate c) (firstn n ys) st).
  assert (E' : fold_left (year_step rate c) ys st = year_step rate c s y)
    by (rewrite E at 1; now rewrite fold_left_app).
  rewrite E'.
  destruct (year_record_fields c s y) as (_ & _ & _ & _ & Hn & _).
  unfold year_step. cbn [total_portfolio total_external_investment].
  rewrite Hn. split; lra.
Qed.

Lemma cycle_step_zero (st : SimState) (c : Cycle) :
  cycle_length_years c = 0%nat -> cycle_step rate st c = invest_loan st c.
Proof. unfold cycle_step. now intros ->. Qed.

End Loops.

(** ** The global sequence of records *)

Section Records.

Variable rate : R.

Lemma locate_cons_lt (c : Cycle) (cs : list Cycle) (i : nat) :
  (i < cycle_length_years c)%nat -> locate (c :: cs) i = Some (0%nat, i).
Proof. intros H. simpl. now apply Nat.ltb_lt in H as ->. Qed.

Lemma locate_cons_ge (c : Cycle) (cs : list Cycle) (i : nat) :
  (cycle_length_years c <= i)%nat ->
  locate (c :: cs) i
  = option_map (fun p => (S (fst p), snd p))
               (locate cs (i - cycle_length_years c)).
Proof. intros H. simpl. now apply Nat.ltb_ge in H as ->. Qed.

Lemma cycle_of_cons_lt (c : Cycle) (cs : list Cycle) (i : nat) :
  (i < cycle_length_years c)%nat -> cycle_of (c :: cs) i = Some 0%nat.
Proof. intros H. unfold cycle_of. now rewrite locate_cons_lt. Qed.

Lemma cycle_of_cons_ge (c : Cycle) (cs : list Cycle) (i : nat) :
  (cycle_length_years c <= i)%nat ->
  cycle_of (c :: cs) i = option_map S (cycle_of cs (i - cycle_length_years c)).
Proof.
  intros H. unfold cycle_of. rewrite locate_cons_ge by assumption.
  now destruct (locate cs (i - cycle_length_years c)).
Qed.

Lemma emitted_nth_early (c : Cycle) (cs : list Cycle) (st : SimState) (i : nat) :
  (i < cycle_length_years c)%nat ->
  nth_error (emit_cycles rate st (c :: cs)) i
  = nth_error (emit_cycle rate st c) i.
Proof.
  intros H. simpl. rewrite nth_error_app, length_emit_cycle.
  now apply Nat.ltb_lt in H as ->.
Qed.

Lemma emitted_nth_late (c : Cycle) (cs : list Cycle) (st : SimState) (i : nat) :
  (cycle_length_years c <= i)%nat ->
  nth_error (emit_cycles rate st (c :: cs)) i
  = nth_error (emit_cycles rate (cycle_step rate st c) cs)
              (i - cycle_length_years c).
Proof.
  intros H. simpl. rewrite nth_error_app, length_emit_cycle.
  now apply Nat.ltb_ge in H as ->.
Qed.

(** The year [y] of cycle [k] is simulated year number
    [total_years (firstn k cs) + y]. *)
Lemma locate_offset (cs : list Cycle) (k y : nat) (c : Cycle) :
  nth_error cs k = Some c -> (y < cycle_length_years c)%nat ->
  locate cs (total_years (firstn k cs) + y) = Some (k, y).
Proof.
  revert cs. induction k as [|k IH]; intros [|c0 cs] Hc Hy; try discriminate.
  - simpl in Hc. injection Hc as ->. now apply locate_cons_lt.
  - simpl in Hc.
    change (total_years (firstn (S k) (c0 :: cs)))
      with (cycle_length_years c0 + total_years (firstn k cs))%nat.
    rewrite locate_cons_ge by lia.
    replace (cycle_length_years c0 + total_years (firstn k cs) + y
             - cycle_length_years c0)%nat
      with (total_years (firstn k cs) + y)%nat by lia.
    now rewrite (IH cs Hc Hy).
Qed.

Lemma locate_in_range (cs : list Cycle) (i : nat) (p : nat * nat) :
  locate cs i = Some p -> (i < total_years cs)%nat.
Proof.
  revert i p. induction cs as [|c cs IH]; intros i p H; [discriminate|].
  change (total_years (c :: cs))
    with (cycle_length_years c + total_years cs)%nat.
  destruct (Nat.lt_ge_cases i (cycle_length_years c)) as [Hlt|Hge]; [lia|].
  rewrite locate_cons_ge in H by assumption.
  destruct (locate cs (i - cycle_length_years c)) as [q|] eqn:E; [|discriminate].
  apply IH in E. lia.
Qed.

(** Every record is the record of some year [y] of some cycle [c], and
    its own fields are tied together as the year body computes them. *)
Lemma record_local (cs : list Cycle) (st : SimState) (i : nat) (r : YearRecord) :
  nth_error (emit_cycles rate st cs) i = Some r ->
  exists k y c,
    locate cs i = Some (k, y) /\ nth_error cs k = Some c
    /\ (y < cycle_length_years c)%nat
    /\ (portfolio_after r, out_of_pocket_year r)
       = run_months rate c y (portfolio_before r)
    /\ roi_year r = (portfolio_after r - portfolio_before r) - out_of_pocket_year r
    /\ delta_year r = roi_year r - out_of_pocket_year r.
Proof.
  revert st i r. induction cs as [|c cs IH]; intros st i r H.
  - destruct i; discriminate.
  - destruct (Nat.lt_ge_cases i (cycle_length_years c)) as [Hlt|Hge].
    + rewrite emitted_nth_early in H by assumption.
      unfold emit_cycle in H. rewrite emit_years_nth, nth_error_seq in H.
      apply Nat.ltb_lt in Hlt as Hb. rewrite Hb in H. simpl in H.
      injection H as <-.
      exists 0%nat, i, c. rewrite locate_cons_lt by assumption.
      match goal with |- context [year_record rate c ?s i] =>
        destruct (year_record_fields rate c s i) as (Hpb & Hm & Hr & Hd & _)
      end.
      repeat split; auto. now rewrite Hpb.
    + rewrite emitted_nth_late in H by assumption.
      destruct (IH _ _ _ H) as (k & y & c' & Hl & Hc & Hy & Hrest).
      exists (S k), y, c'. rewrite locate_cons_ge, Hl by assumption.
      repeat split; auto; apply Hrest.
Qed.

(** How a record is linked to the one before it (or to the initial state):
    the portfolio it starts from, and the cash injected so far. *)
Lemma record_chain (cs : list Cycle) (st : SimState) (i : nat) (r : YearRecord) :
  nth_error (emit_cycles rate st cs) i = Some r ->
  exists k, cycle_of cs i = Some k /\
    match i with
    | O =>
        portfolio_before r = total_portfolio st + loan_sum (firstn (S k) cs)
        /\ portfolio_after r - net_gains_end_of_year r
           = total_external_investment st + out_of_pocket_year r
        /\ (forall q c, (q < k)%nat -> nth_error cs q = Some c ->
                        cycle_length_years c = 0%nat)
    | S j =>
        exists r' k',
          nth_error (emit_cycles rate st cs) j = Some r'
          /\ cycle_of cs j = Some k' /\ (k' <= k)%nat
          /\ portfolio_before r
             = portfolio_after r' + loan_sum (skipn (S k') (firstn (S k) cs))
          /\ portfolio_after r - net_gains_end_of_year r
             = (portfolio_after r' - net_gains_end_of_year r')
               + out_of_pocket_year r
          /\ (forall q c, (k' < q < k)%nat -> nth_error cs q = Some c ->
                          cycle_length_years c = 0%nat)
    end.
Proof.
  revert st i r. induction cs as [|c cs IH]; intros st i r H.
  - destruct i; discriminate.
  - destruct (Nat.lt_ge_cases i (cycle_length_years c)) as [Hlt|Hge].
    + (* a year of the first cycle *)
      exists 0%nat. split; [now apply cycle_of_cons_lt|].
      rewrite emitted_nth_early in H by assumption. unfold emit_cycle in H.
      destruct i as [|j].
      * apply emit_years_head in H as [Hb Hn]. simpl in Hb, Hn.
        unfold loan_sum. simpl. repeat split; try lra. intros q c0 Hq; lia.
      * apply emit_years_succ in H as (r' & Hr' & Hb & Hn).
        exists r', 0%nat. rewrite emitted_nth_early by lia.
        rewrite cycle_of_cons_lt by lia.
        unfold loan_sum. simpl. repeat split; auto; try lra.
        intros q c0 Hq; lia.
    + (* a year of a later cycle *)
      rewrite emitted_nth_late in H by assumption.
      destruct (IH _ _ _ H) as (k & Hk & Hrest).
      exists (S k). split; [rewrite cycle_of_cons_ge, Hk by assumption; reflexivity|].
      destruct i as [|j].
      * (* the first cycle has no year *)
        assert (Hz : cycle_length_years c = 0%nat) by lia.
        rewrite Hz in Hrest. simpl in Hrest. destruct Hrest as (Hb & Hn & Hq).
        rewrite cycle_step_zero in Hb, Hn by assumption. simpl in Hb, Hn.
        change (firstn (S (S k)) (c :: cs)) with (c :: firstn (S k) cs).
        unfold loan_sum in *. simpl. repeat split; try lra.
        intros [|q] c0 Hlt Hc0; simpl in Hc0.
        -- now injection Hc0 as <-.
        -- apply (Hq q); [lia | assumption].
      * destruct (S j - cycle_length_years c)%nat as [|n] eqn:En.
        -- (* first year after the first cycle, which has years *)
           destruct Hrest as (Hb & Hn & Hq).
           assert (Hlen : cycle_length_years c = S j) by lia.
           destruct (nth_error (emit_cycle rate st c) j) as [r'|] eqn:Er'.
           2:{ apply nth_error_None in Er'. rewrite length_emit_cycle in Er'. lia. }
           exists r', 0%nat. rewrite emitted_nth_early by lia.
           rewrite cycle_of_cons_lt by lia.
           unfold emit_cycle in Er'.
           destruct (state_after_years rate c (seq 0 (cycle_length_years c))
                       (invest_loan st c) j r') as [Htp Htei];
             [now rewrite length_seq | assumption |].
           fold (cycle_step rate st c) in Htp, Htei.
           change (skipn 1 (firstn (S (S k)) (c :: cs))) with (firstn (S k) cs).
           repeat split; auto; try lia; try lra.
           intros [|q] c0 Hlt Hc0; [lia|]. simpl in Hc0.
           apply (Hq q); [lia | assumption].
        -- destruct Hrest as (r' & k' & Hr' & Hk' & Hle & Hb & Hn & Hq).
           assert (En' : (j - cycle_length_years c)%nat = n) by lia.
           exists r', (S k'). rewrite emitted_nth_late by lia.
           rewrite cycle_of_cons_ge by lia. rewrite En', Hr', Hk'.
           change (skipn (S (S k')) (firstn (S (S k)) (c :: cs)))
             with (skipn (S k') (firstn (S k) cs)).
           repeat split; auto; try lia.
           intros [|q] c0 Hlt Hc0; [lia|]. simpl in Hc0.
           apply (Hq q); [lia | assumption].
Qed.

End Records.

(** ** Properties of the financial math *)

(** C8. For every annual rate [a > -1], compounding a principal of 1 for 12
    months at the converted monthly rate gives back the annual factor:
    [compound_growth(1, annual_rate2mensual_rate(a), 12) = 1 + a]. *)
Theorem monthly_rate_compounds_to_annual (a : R) :
  -1 < a -> compound_growth 1 (annual_rate2mensual_rate a) 12 = 1 + a.
Proof.
  intros Ha. unfold compound_growth, annual_rate2mensual_rate.
  replace (1 + (Py.pow_float (1 + a) (1 / 12) - 1))
    with (Py.pow_float (1 + a) (1 / 12)) by ring.
  rewrite pow_float_twelfth_pow by lra. ring.
Qed.

(** At the default investment rate of the form, 8%. *)
Lemma monthly_rate_compounds_to_annual_witness :
  -1 < 8 / 100
  /\ compound_growth 1 (annual_rate2mensual_rate (8 / 100)) 12 = 1 + 8 / 100.
Proof.
  split; [lra | apply (monthly_rate_compounds_to_annual (8 / 100)); lra].
Defined.

Lemma monthly_repayment_no_month (P r Y : R) :
  Py.int (Y * 12) = 0%Z -> monthly_repayment P r Y = 0.
Proof. intros H. unfold monthly_repayment. now rewrite H. Qed.

Lemma monthly_repayment_straight_line (P r Y : R) :
  Py.int (Y * 12) <> 0%Z -> annual_rate2mensual_rate r = 0 ->
  monthly_repayment P r Y = P / IZR (Py.int (Y * 12)).
Proof.
  intros Hn Hm. unfold monthly_repayment.
  apply Z.eqb_neq in Hn. rewrite Hn.
  destruct (Req_dec_T (annual_rate2mensual_rate r) 0); [reflexivity | contradiction].
Qed.

Lemma monthly_repayment_annuity (P r Y : R) :
  Py.int (Y * 12) <> 0%Z -> annual_rate2mensual_rate r <> 0 ->
  monthly_repayment P r Y
  = P * (annual_rate2mensual_rate r
           * Py.pow_int (1 + annual_rate2mensual_rate r) (Py.int (Y * 12))
         / (Py.pow_int (1 + annual_rate2mensual_rate r) (Py.int (Y * 12)) - 1)).
Proof.
  intros Hn Hm. unfold monthly_repayment.
  apply Z.eqb_neq in Hn. rewrite Hn.
  destruct (Req_dec_T (annual_rate2mensual_rate r) 0); [contradiction | reflexivity].
Qed.

(** C3, as the code has it.  With [n = int(Y * 12)] (truncation, the floor
    of [Y * 12] when [Y >= 0]) and [m] the converted monthly rate,
    [monthly_repayment(P, r, Y)] is 0 when [n = 0] (so for [Y = 0]), [P / n]
    when [m = 0], and [P * (m (1+m)^n) / ((1+m)^n - 1)] otherwise; for
    [r > -1], [m = 0] exactly when [r = 0]; and [monthly_repayment(P, 0, Y)]
    is [P / (Y * 12)] when [Y * 12] is a whole positive number of months,
    in particular for every whole number of years [Y > 0]. *)
Theorem monthly_repayment_cases (P r Y : R) :
  let m := annual_rate2mensual_rate r in
  let n := Py.int (Y * 12) in
  (0 <= Y -> n = Int_part (Y * 12)
             /\ IZR n <= Y * 12 < IZR n + 1)
  /\ (n = 0%Z -> monthly_repayment P r Y = 0)
  /\ monthly_repayment P r 0 = 0
  /\ (n <> 0%Z -> m = 0 -> monthly_repayment P r Y = P / IZR n)
  /\ (n <> 0%Z -> m <> 0 ->
      monthly_repayment P r Y
      = P * (m * Py.pow_int (1 + m) n / (Py.pow_int (1 + m) n - 1)))
  /\ (-1 < r -> (m = 0 <-> r = 0))
  /\ (forall z : Z, (0 < z)%Z -> Y * 12 = IZR z ->
      monthly_repayment P 0 Y = P / (Y * 12))
  /\ (forall k : nat, (0 < k)%nat ->
      monthly_repayment P 0 (INR k) = P / (INR k * 12)).
Proof.
  intros m n. subst m n. repeat apply conj.
  - intros HY. rewrite py_int_floor by lra.
    pose proof (base_Int_part (Y * 12)) as [H1 H2].
    repeat split; [assumption | lra].
  - apply monthly_repayment_no_month.
  - apply monthly_repayment_no_month.
    rewrite Rmult_0_l. apply (py_int_IZR 0).
  - apply monthly_repayment_straight_line.
  - apply monthly_repayment_annuity.
  - apply monthly_rate_zero_iff.
  - intros z Hz E.
    rewrite monthly_repayment_straight_line.
    + now rewrite E, py_int_IZR.
    + rewrite E, py_int_IZR. lia.
    + apply monthly_rate_of_zero.
  - intros k Hk.
    rewrite monthly_repayment_straight_line.
    + rewrite py_int_months_of_years, <- INR_IZR_INZ, mult_INR.
      simpl. f_equal. ring.
    + rewrite py_int_months_of_years. lia.
    + apply monthly_rate_of_zero.
Qed.

(** C3, as the specification words it, fails for a fractional duration: for
    [Y = 1/8] (a month and a half) the zero-rate payment is [P / 1], not
    [P / (Y * 12)]. *)
Lemma monthly_repayment_fractional_years :
  0 < 1 / 8
  /\ monthly_repayment 1200 0 (1 / 8) = 1200
  /\ 1200 / (1 / 8 * 12) = 800
  /\ monthly_repayment 1200 0 (1 / 8) <> 1200 / (1 / 8 * 12).
Proof.
  assert (En : Py.int (1 / 8 * 12) = 1%Z).
  { rewrite py_int_floor by lra. symmetry. apply Int_part_spec. lra. }
  assert (E : monthly_repayment 1200 0 (1 / 8) = 1200).
  { rewrite monthly_repayment_straight_line.
    - rewrite En. lra.
    - rewrite En. lia.
    - apply monthly_rate_of_zero. }
  repeat split; [lra | exact E | lra | rewrite E; lra].
Qed.

(** ** Cash out of pocket, cycle by cycle *)

Lemma Rsum_app (l1 l2 : list R) : Rsum (l1 ++ l2) = Rsum l1 + Rsum l2.
Proof.
  unfold Rsum. induction l1 as [|x l1 IH]; simpl; [lra | rewrite IH; lra].
Qed.

(** Sum of [x] over the years below [a], among the first [n] years. *)
Lemma Rsum_window (a n : nat) (x : R) :
  Rsum (map (fun y => if (y <? a)%nat then x else 0) (seq 0 n))
  = INR (Nat.min a n) * x.
Proof.
  induction n as [|n IH].
  - rewrite Nat.min_0_r. simpl. lra.
  - rewrite seq_S, map_app, Rsum_app, IH. cbn [Nat.add map Rsum fold_right].
    destruct (Nat.ltb_spec n a) as [H|H].
    + rewrite (Nat.min_r a n), (Nat.min_r a (S n)), S_INR by lia. lra.
    + rewrite (Nat.min_l a n), (Nat.min_l a (S n)) by lia. lra.
Qed.

Section OutOfPocket.

Variable rate : R.

Lemma months_out_of_pocket (c : Cycle) (y n : nat) (tp oop : R) :
  snd (Nat.iter n (month_step rate c y) (tp, oop))
  = oop + INR n * monthly_cash c y.
Proof.
  induction n as [|n IH].
  - simpl. lra.
  - rewrite S_INR.
    change (Nat.iter (S n) (month_step rate c y) (tp, oop))
      with (month_step rate c y (Nat.iter n (month_step rate c y) (tp, oop))).
    destruct (Nat.iter n (month_step rate c y) (tp, oop)) as [tp' oop'].
    cbn [snd] in IH. subst oop'. unfold month_step, monthly_cash.
    destruct (y <? loan_repayment_years c)%nat,
             (y <? contribution_years c)%nat; cbn [snd]; lra.
Qed.

Lemma year_out_of_pocket (c : Cycle) (st : SimState) (y : nat) :
  out_of_pocket_year (year_record rate c st y) = 12 * monthly_cash c y.
Proof.
  destruct (year_record_fields rate c st y) as (_ & Hm & _).
  apply (f_equal snd) in Hm. simpl in Hm. rewrite Hm. unfold run_months.
  rewrite months_out_of_pocket. simpl. lra.
Qed.

Lemma years_out_of_pocket (c : Cycle) (ys : list nat) (st : SimState) :
  Rsum (map out_of_pocket_year (emit_years rate c st ys))
  = 12 * Rsum (map (monthly_cash c) ys).
Proof.
  revert st. induction ys as [|y ys IH]; intros st; simpl.
  - lra.
  - rewrite IH, year_out_of_pocket. lra.
Qed.

Lemma Rsum_map_plus {A : Type} (f g : A -> R) (l : list A) :
  Rsum (map (fun a => f a + g a) l) = Rsum (map f l) + Rsum (map g l).
Proof. induction l as [|a l IH]; simpl; [lra | rewrite IH; lra]. Qed.

(** A whole cycle: every repayment year pays [12 * m_repayment], every
    contribution year [12 * monthly_contribution]. *)
Lemma emit_cycle_out_of_pocket (st : SimState) (c : Cycle) :
  Rsum (map out_of_pocket_year (emit_cycle rate st c))
  = 12 * INR (loan_repayment_years c) * m_repayment c
    + 12 * INR (contribution_years c) * monthly_contribution c.
Proof.
  unfold emit_cycle. rewrite years_out_of_pocket. unfold monthly_cash.
  rewrite Rsum_map_plus, !Rsum_window. unfold cycle_length_years.
  rewrite !Nat.min_l by lia. lra.
Qed.

(** The records of cycle [k] are a contiguous slice of the global
    sequence. *)
Lemma skipn_emit_cycles (k : nat) (cs : list Cycle) (st : SimState) (c : Cycle) :
  nth_error cs k = Some c ->
  skipn (total_years (firstn k cs)) (emit_cycles rate st cs)
  = emit_cycle rate (run_cycles rate st (firstn k cs)) c
    ++ emit_cycles rate (run_cycles rate st (firstn (S k) cs)) (skipn (S k) cs).
Proof.
  revert cs st. induction k as [|k IH]; intros [|c0 cs] st H; try discriminate.
  - simpl in H. injection H as ->. reflexivity.
  - simpl in H.
    change (firstn (S k) (c0 :: cs)) with (c0 :: firstn k cs).
    change (firstn (S (S k)) (c0 :: cs)) with (c0 :: firstn (S k) cs).
    change (skipn (S (S k)) (c0 :: cs)) with (skipn (S k) cs).
    change (total_years (c0 :: firstn k cs))
      with (cycle_length_years c0 + total_years (firstn k cs))%nat.
    cbn [emit_cycles]. rewrite skipn_app, length_emit_cycle.
    rewrite skipn_all2 by (rewrite length_emit_cycle; lia).
    replace (cycle_length_years c0 + total_years (firstn k cs)
             - cycle_length_years c0)%nat
      with (total_years (firstn k cs)) by lia.
    rewrite (IH cs (cycle_step rate st c0) H). reflexivity.
Qed.

Lemma cycle_records_emit (k : nat) (cs : list Cycle) (st : SimState) (c : Cycle) :
  nth_error cs k = Some c ->
  cycle_records cs (emit_cycles rate st cs) k
  = emit_cycle rate (run_cycles rate st (firstn k cs)) c.
Proof.
  intros H. unfold cycle_records.
  rewrite (nth_error_nth _ _ _ H), (skipn_emit_cycles _ _ _ _ H).
  rewrite firstn_app, length_emit_cycle, Nat.sub_diag, firstn_O, app_nil_r.
  apply firstn_all2. now rewrite length_emit_cycle.
Qed.

End OutOfPocket.

Lemma simulated_details (cs : list Cycle) (a : R) (age : Z) :
  res_annual_details (simulate_multi_cycle_strategy_detailed cs a age)
  = emit_cycles (annual_rate2mensual_rate a) (init_state age) cs.
Proof.
  unfold simulate_multi_cycle_strategy_detailed. simpl.
  now rewrite details_cycles.
Qed.

Lemma cycle_out_of_pocket_formula (cs : list Cycle) (a : R) (age : Z) (k : nat)
    (c : Cycle) :
  nth_error cs k = Some c ->
  cycle_out_of_pocket cs a age k
  = 12 * INR (loan_repayment_years c) * m_repayment c
    + 12 * INR (contribution_years c) * monthly_contribution c.
Proof.
  intros H. unfold cycle_out_of_pocket.
  rewrite simulated_details, (cycle_records_emit _ _ _ _ _ H).
  apply emit_cycle_out_of_pocket.
Qed.

Lemma fold_append_map {A B : Type} (f : A -> B) (l : list A) (acc : list B) :
  fold_left (fun acc a => acc ++ [f a]) l acc = acc ++ map f l.
Proof.
  revert acc. induction l as [|a l IH]; intros acc; simpl.
  - now rewrite app_nil_r.
  - now rewrite IH, <- app_assoc.
Qed.

Lemma dca_mirror_map (scenario1 : list Cycle) :
  dca_mirror scenario1 = map dca_cycle scenario1.
Proof.
  unfold dca_mirror, build_dca_cycles_from_lumpsum. simpl.
  now rewrite fold_append_map.
Qed.

(** ** Signs *)

Section Signs.

Variable rate : R.
Hypothesis rate_nonneg : 0 <= rate.

Variable c : Cycle.
Hypothesis c_nonneg : cycle_nonneg c.

Lemma month_step_nonneg (y : nat) (s : R * R) :
  0 <= fst s /\ 0 <= snd s ->
  0 <= fst (month_step rate c y s) /\ 0 <= snd (month_step rate c y s).
Proof.
  destruct s as [tp oop]. destruct c_nonneg as (Hl & Hc & Hr).
  rewrite month_step_spec.
  unfold Spec.month, Spec.grow, Spec.contribute, Spec.repay.
  cbn [fst snd]. intros [Htp Hoop].
  destruct (y <? loan_repayment_years c)%nat,
           (y <? contribution_years c)%nat; cbn [fst snd]; split; nra.
Qed.

Lemma iter_trace_nonneg (y n : nat) (s : R * R) :
  0 <= fst s /\ 0 <= snd s ->
  Forall (fun s' => 0 <= fst s' /\ 0 <= snd s')
         (iter_trace (month_step rate c y) n s).
Proof.
  revert s. induction n as [|n IH]; intros s Hs; simpl; constructor.
  - now apply month_step_nonneg.
  - apply IH. now apply month_step_nonneg.
Qed.

Lemma run_months_nonneg (y : nat) (tp : R) :
  0 <= tp ->
  0 <= fst (run_months rate c y tp) /\ 0 <= snd (run_months rate c y tp).
Proof.
  intros Htp. unfold run_months.
  generalize 12%nat as n. induction n as [|n IH].
  - simpl. lra.
  - change (Nat.iter (S n) (month_step rate c y) (tp, 0))
      with (month_step rate c y (Nat.iter n (month_step rate c y) (tp, 0))).
    now apply month_step_nonneg.
Qed.

Lemma year_nonneg (st : SimState) (y : nat) :
  0 <= total_portfolio st -> 0 <= total_external_investment st ->
  let r := year_record rate c st y in
  let st' := year_step rate c st y in
  (0 <= total_portfolio st' /\ 0 <= total_external_investment st')
  /\ (0 <= out_of_pocket_year r /\ 0 <= portfolio_before r
      /\ 0 <= portfolio_after r /\ 0 <= cumulative_injected r)
  /\ Forall (fun s => 0 <= fst (fst s) /\ 0 <= snd (fst s) /\ 0 <= snd s)
            (snapshots_year rate c st y).
Proof.
  intros Htp Htei r st'. subst r st'.
  destruct (year_record_fields rate c st y) as (Hb & Hm & _ & _ & Hn & _).
  pose proof (run_months_nonneg y _ Htp) as [H1 H2].
  rewrite <- Hm in H1, H2. cbn [fst snd] in H1, H2.
  unfold cumulative_injected, year_step.
  cbn [total_portfolio total_external_investment].
  rewrite Hn, Hb. repeat split; try lra.
  unfold snapshots_year. apply Forall_map.
  eapply Forall_impl; [| apply (iter_trace_nonneg y 12 (total_portfolio st, 0))].
  - cbn [fst snd]. intros s [? ?]. repeat split; assumption.
  - cbn [fst snd]. split; lra.
Qed.

Lemma years_nonneg (ys : list nat) (st : SimState) :
  0 <= total_portfolio st -> 0 <= total_external_investment st ->
  let st' := fold_left (year_step rate c) ys st in
  (0 <= total_portfolio st' /\ 0 <= total_external_investment st')
  /\ Forall (fun r => 0 <= out_of_pocket_year r /\ 0 <= portfolio_before r
                      /\ 0 <= portfolio_after r /\ 0 <= cumulative_injected r)
            (emit_years rate c st ys)
  /\ Forall (fun s => 0 <= fst (fst s) /\ 0 <= snd (fst s) /\ 0 <= snd s)
            (snapshots_years rate c st ys).
Proof.
  revert st. induction ys as [|y ys IH]; intros st Htp Htei st'; subst st'.
  - simpl. repeat split; auto.
  - destruct (year_nonneg st y Htp Htei) as ((H1 & H2) & Hr & Hs).
    destruct (IH _ H1 H2) as (Hst & Hrs & Hss).
    cbn [fold_left emit_years snapshots_years].
    split; [exact Hst | split; [now constructor | apply Forall_app; now split]].
Qed.

End Signs.

Lemma length_iter_trace {A : Type} (f : A -> A) (n : nat) (x : A) :
  length (iter_trace f n x) = n.
Proof. revert x. induction n; intros; simpl; auto. Qed.

Lemma iter_trace_nth {A : Type} (f : A -> A) (n k : nat) (x : A) :
  (k < n)%nat -> nth_error (iter_trace f n x) k = Some (Nat.iter (S k) f x).
Proof.
  revert k x. induction n as [|n IH]; intros k x Hk; [lia|].
  destruct k as [|k]; [reflexivity|].
  cbn [iter_trace nth_error]. rewrite IH by lia.
  now rewrite (Nat.iter_succ_r (S k)).
Qed.

(** The twelfth snapshot of a year is what its record reports. *)
Lemma snapshots_year_end (rate : R) (c : Cycle) (st : SimState) (y : nat) :
  nth_error (snapshots_year rate c st y) 11
  = Some (portfolio_after (year_record rate c st y),
          total_external_investment st,
          out_of_pocket_year (year_record rate c st y)).
Proof.
  destruct (year_record_fields rate c st y) as (_ & Hm & _).
  unfold snapshots_year. rewrite nth_error_map, iter_trace_nth by lia.
  fold (run_months rate c y (total_portfolio st)). rewrite <- Hm. reflexivity.
Qed.

Lemma length_snapshots_years (rate : R) (c : Cycle) (ys : list nat) (st : SimState) :
  length (snapshots_years rate c st ys) = (12 * length ys)%nat.
Proof.
  revert st. induction ys as [|y ys IH]; intros st; [reflexivity|].
  cbn [snapshots_years]. rewrite length_app, IH. unfold snapshots_year.
  rewrite length_map, length_iter_trace. simpl. lia.
Qed.

Lemma length_snapshots_cycles (rate : R) (cs : list Cycle) (st : SimState) :
  length (snapshots_cycles rate st cs) = (12 * total_years cs)%nat.
Proof.
  revert st. induction cs as [|c cs IH]; intros st; [reflexivity|].
  cbn [snapshots_cycles]. rewrite length_app, IH, length_snapshots_years, length_seq.
  change (total_years (c :: cs)) with (cycle_length_years c + total_years cs)%nat.
  lia.
Qed.

Lemma cycles_nonneg (rate : R) (cs : list Cycle) (st : SimState) :
  0 <= rate -> Forall cycle_nonneg cs ->
  0 <= total_portfolio st -> 0 <= total_external_investment st ->
  let st' := run_cycles rate st cs in
  (0 <= total_portfolio st' /\ 0 <= total_external_investment st')
  /\ Forall (fun r => 0 <= out_of_pocket_year r /\ 0 <= portfolio_before r
                      /\ 0 <= portfolio_after r /\ 0 <= cumulative_injected r)
            (emit_cycles rate st cs)
  /\ Forall (fun s => 0 <= fst (fst s) /\ 0 <= snd (fst s) /\ 0 <= snd s)
            (snapshots_cycles rate st cs).
Proof.
  intros Hrate Hcs. revert st.
  induction Hcs as [|c cs Hc Hcs IH]; intros st Htp Htei st'; subst st'.
  - simpl. repeat split; auto.
  - assert (Hl : 0 <= total_portfolio (invest_loan st c))
      by (destruct Hc as (? & _); simpl; lra).
    destruct (years_nonneg rate Hrate c Hc (seq 0 (cycle_length_years c))
                (invest_loan st c) Hl Htei) as ((H1 & H2) & Hr & Hs).
    destruct (IH (cycle_step rate st c) H1 H2) as (Hst & Hrs & Hss).
    cbn [run_cycles fold_left emit_cycles snapshots_cycles].
    split; [exact Hst | split; apply Forall_app; now split].
Qed.

(** ** Properties of the simulator *)

Lemma no_month_of_zero_years (P r : R) : monthly_repayment P r (INR 0) = 0.
Proof.
  apply monthly_repayment_no_month. apply (py_int_months_of_years 0).
Qed.

Lemma loan_sum_same_cycle (k : nat) (cs : list Cycle) :
  loan_sum (skipn (S k) (firstn (S k) cs)) = 0.
Proof.
  rewrite skipn_all2; [reflexivity | apply firstn_le_length].
Qed.

(** A year of 100 per month at rate 0: 1200 in the portfolio, 1200 out of
    pocket, no gain. *)
Example contribution_only_year :
  exists r,
    res_annual_details
      (simulate_multi_cycle_strategy_detailed contribution_only 0 30) = [r]
    /\ year_index r = 1%nat /\ age_end r = 31%Z
    /\ portfolio_before r = 0 /\ portfolio_after r = 1200
    /\ out_of_pocket_year r = 1200 /\ cumulative_injected r = 1200
    /\ roi_year r = 0 /\ delta_year r = -1200
    /\ net_gains_end_of_year r = 0.
Proof.
  unfold simulate_multi_cycle_strategy_detailed. rewrite monthly_rate_of_zero.
  eexists. split; [reflexivity|]. unfold cumulative_injected.
  cbn -[Rplus Rminus Rmult IZR]. rewrite !compound_growth_1.
  repeat apply conj; try reflexivity; lra.
Qed.

(** C1. Every year [y] of every cycle [c] of the strategy has its record,
    and for every record the twelve months are processed by the monthly
    update of the specification: the repayment goes to [out_of_pocket_year]
    only, when [y < loan_repayment_years]; then the contribution goes to
    [out_of_pocket_year] and to the portfolio, when [y < contribution_years];
    then the whole portfolio, contribution of the month included, is
    multiplied by [1 + monthly_rate]. *)
Theorem monthly_update_order (cs : list Cycle) (a : R) (age : Z) :
  let details :=
    res_annual_details (simulate_multi_cycle_strategy_detailed cs a age) in
  (forall i r,
      nth_error details i = Some r ->
      exists k y c,
        locate cs i = Some (k, y) /\ nth_error cs k = Some c
        /\ (y < cycle_length_years c)%nat
        /\ (portfolio_after r, out_of_pocket_year r)
           = Nat.iter 12 (Spec.month (annual_rate2mensual_rate a) c y)
                      (portfolio_before r, 0))
  /\ (forall k y c,
        nth_error cs k = Some c -> (y < cycle_length_years c)%nat ->
        exists i r, locate cs i = Some (k, y) /\ nth_error details i = Some r).
Proof.
  intros details. subst details. rewrite simulated_details. split.
  - intros i r H.
    destruct (record_local _ _ _ _ _ H) as (k & y & c & Hl & Hc & Hy & Hm & _).
    exists k, y, c. repeat split; auto.
    rewrite Hm. unfold run_months. apply iter_ext. intros s.
    apply month_step_spec.
  - intros k y c Hc Hy.
    pose proof (locate_offset cs k y c Hc Hy) as Hl.
    exists (total_years (firstn k cs) + y)%nat.
    destruct (nth_error (emit_cycles (annual_rate2mensual_rate a)
                           (init_state age) cs)
                        (total_years (firstn k cs) + y)) as [r|] eqn:E.
    + now exists r.
    + apply nth_error_None in E. rewrite length_emit_cycles in E.
      apply locate_in_range in Hl. lia.
Qed.

(** The second year of [save_then_borrow], first year of its second cycle. *)
Lemma monthly_update_order_witness :
  exists r,
    nth_error (res_annual_details
                 (simulate_multi_cycle_strategy_detailed save_then_borrow 0 30)) 1
    = Some r
    /\ exists k y c,
         locate save_then_borrow 1 = Some (k, y)
         /\ nth_error save_then_borrow k = Some c
         /\ (y < cycle_length_years c)%nat
         /\ (portfolio_after r, out_of_pocket_year r)
            = Nat.iter 12 (Spec.month (annual_rate2mensual_rate 0) c y)
                       (portfolio_before r, 0).
Proof.
  eexists. split; [reflexivity|].
  apply (proj1 (monthly_update_order save_then_borrow 0 30) 1%nat). reflexivity.
Defined.

(** C2, as the code has it.  For consecutive records [i] and [i+1],
    [net_gains_end_of_year[i+1]] is [net_gains_end_of_year[i] + roi_year[i+1]]
    plus the principal borrowed between the two records (the [loan_amount]
    of the cycles after the one of record [i], up to the one of record
    [i+1]); inside one cycle nothing is borrowed and the specification's
    equation holds as it stands. *)
Theorem net_gains_step (cs : list Cycle) (a : R) (age : Z) (i : nat)
    (r' r : YearRecord) :
  let details :=
    res_annual_details (simulate_multi_cycle_strategy_detailed cs a age) in
  nth_error details i = Some r' ->
  nth_error details (S i) = Some r ->
  exists k' k,
    cycle_of cs i = Some k' /\ cycle_of cs (S i) = Some k /\ (k' <= k)%nat
    /\ net_gains_end_of_year r
       = net_gains_end_of_year r' + roi_year r
         + loan_sum (skipn (S k') (firstn (S k) cs))
    /\ (k' = k ->
        net_gains_end_of_year r = net_gains_end_of_year r' + roi_year r).
Proof.
  intros details. subst details. rewrite simulated_details. intros Hr' Hr.
  destruct (record_chain _ _ _ _ _ Hr) as (k & Hk & r0 & k' & Hr0 & Hk' & Hle & Hb & Hn & _).
  rewrite Hr' in Hr0. injection Hr0 as <-.
  destruct (record_local _ _ _ _ _ Hr) as (_ & _ & _ & _ & _ & _ & _ & Hroi & _).
  exists k', k.
  assert (E : net_gains_end_of_year r
              = net_gains_end_of_year r' + roi_year r
                + loan_sum (skipn (S k') (firstn (S k) cs)))
    by (rewrite Hroi, Hb; lra).
  repeat split; auto.
  intros ->. rewrite loan_sum_same_cycle in E. lra.
Qed.

(** The two years of [save_then_borrow]. *)
Lemma net_gains_step_witness :
  exists r' r,
    nth_error (res_annual_details
                 (simulate_multi_cycle_strategy_detailed save_then_borrow 0 30)) 0
    = Some r'
    /\ nth_error (res_annual_details
                 (simulate_multi_cycle_strategy_detailed save_then_borrow 0 30)) 1
       = Some r
    /\ exists k' k,
         cycle_of save_then_borrow 0 = Some k'
         /\ cycle_of save_then_borrow 1 = Some k /\ (k' <= k)%nat
         /\ net_gains_end_of_year r
            = net_gains_end_of_year r' + roi_year r
              + loan_sum (skipn (S k') (firstn (S k) save_then_borrow))
         /\ (k' = k ->
             net_gains_end_of_year r = net_gains_end_of_year r' + roi_year r).
Proof.
  do 2 eexists. split; [reflexivity|]. split; [reflexivity|].
  apply (net_gains_step save_then_borrow 0 30 0); reflexivity.
Defined.

(** C2, as the specification words it, fails across a cycle boundary: in
    the strategy [save_then_borrow] at investment rate 0, the second cycle
    borrows 1000, so the net gains go from 0 to 1000 while the second
    year's [roi_year] is 0. *)
Lemma net_gains_jump_at_cycle_boundary :
  exists r0 r1,
    nth_error (res_annual_details
                 (simulate_multi_cycle_strategy_detailed save_then_borrow 0 30)) 0
    = Some r0
    /\ nth_error (res_annual_details
                 (simulate_multi_cycle_strategy_detailed save_then_borrow 0 30)) 1
       = Some r1
    /\ cycle_of save_then_borrow 0 = Some 0%nat
    /\ cycle_of save_then_borrow 1 = Some 1%nat
    /\ net_gains_end_of_year r0 = 0
    /\ roi_year r1 = 0
    /\ net_gains_end_of_year r1 = 1000
    /\ net_gains_end_of_year r1 <> net_gains_end_of_year r0 + roi_year r1.
Proof.
  unfold simulate_multi_cycle_strategy_detailed.
  rewrite monthly_rate_of_zero.
  do 2 eexists. split; [reflexivity|]. split; [reflexivity|].
  split; [reflexivity|]. split; [reflexivity|].
  cbn -[Rplus Rminus Rmult IZR]. rewrite !compound_growth_1.
  repeat split; lra.
Qed.

(** C9. The sequence of records is portfolio-continuous.  The first record
    starts from the principal of its cycle and of the cycles without years
    before it.  A later record of the same cycle starts from the previous
    record's [portfolio_after]; the first record of a cycle starts from the
    previous record's [portfolio_after] plus the principal of its cycle and
    of the cycles without years in between.  The cash injected grows by
    [out_of_pocket_year] only: borrowed principal never enters it. *)
Theorem portfolio_continuity (cs : list Cycle) (a : R) (age : Z) (i : nat)
    (r : YearRecord) :
  let details :=
    res_annual_details (simulate_multi_cycle_strategy_detailed cs a age) in
  nth_error details i = Some r ->
  exists k, cycle_of cs i = Some k /\
    match i with
    | O =>
        portfolio_before r = 0 + loan_sum (firstn (S k) cs)
        /\ cumulative_injected r = out_of_pocket_year r
        /\ (forall q c, (q < k)%nat -> nth_error cs q = Some c ->
                        cycle_length_years c = 0%nat)
    | S j =>
        exists r' k',
          nth_error details j = Some r' /\ cycle_of cs j = Some k'
          /\ (k' <= k)%nat
          /\ (k' = k -> portfolio_before r = portfolio_after r')
          /\ portfolio_before r
             = portfolio_after r' + loan_sum (skipn (S k') (firstn (S k) cs))
          /\ cumulative_injected r = cumulative_injected r' + out_of_pocket_year r
          /\ (forall q c, (k' < q < k)%nat -> nth_error cs q = Some c ->
                          cycle_length_years c = 0%nat)
    end.
Proof.
  intros details. subst details. rewrite simulated_details. intros H.
  destruct (record_chain _ _ _ _ _ H) as (k & Hk & Hrest).
  exists k. split; [assumption|]. unfold cumulative_injected.
  destruct i as [|j].
  - destruct Hrest as (Hb & Hn & Hq).
    cbn [init_state total_portfolio total_external_investment] in Hb, Hn.
    repeat apply conj; [lra | lra | assumption].
  - destruct Hrest as (r' & k' & Hr' & Hk' & Hle & Hb & Hn & Hq).
    exists r', k'. repeat split; auto.
    intros ->. rewrite loan_sum_same_cycle in Hb. lra.
Qed.

(** The second year of [save_then_borrow] follows the first. *)
Lemma portfolio_continuity_witness :
  exists r,
    nth_error (res_annual_details
                 (simulate_multi_cycle_strategy_detailed save_then_borrow 0 30)) 1
    = Some r
    /\ exists k, cycle_of save_then_borrow 1 = Some k /\
         exists r' k',
           nth_error (res_annual_details
                        (simulate_multi_cycle_strategy_detailed save_then_borrow 0 30)) 0
           = Some r'
           /\ cycle_of save_then_borrow 0 = Some k' /\ (k' <= k)%nat
           /\ (k' = k -> portfolio_before r = portfolio_after r')
           /\ portfolio_before r
              = portfolio_after r'
                + loan_sum (skipn (S k') (firstn (S k) save_then_borrow))
           /\ cumulative_injected r
              = cumulative_injected r' + out_of_pocket_year r
           /\ (forall q c, (k' < q < k)%nat ->
                           nth_error save_then_borrow q = Some c ->
                           cycle_length_years c = 0%nat).
Proof.
  eexists. split; [reflexivity|].
  apply (portfolio_continuity save_then_borrow 0 30 1). reflexivity.
Defined.

(** ** The DCA mirror *)

(** C5. [build_dca_cycles_from_lumpsum] leaves scenario 1 alone and makes
    scenario 2 the list of the mirrors of its cycles, one per cycle and in
    the same order; a mirror has no loan ([loan_amount],
    [loan_interest_rate], [loan_repayment_years] and [m_repayment] are 0),
    contributes the [m_repayment] of the original each month, during
    [max(loan_repayment_years, contribution_years)] years.  For the loan of
    100000 at 6% over 20 years the mirror contributes
    [monthly_repayment(100000, 0.06, 20)] during 20 years. *)
Theorem dca_mirror_cycles (ss : Session) :
  let ss' := build_dca_cycles_from_lumpsum ss in
  scenario1_cycles ss' = scenario1_cycles ss
  /\ scenario2_cycles ss' = map dca_cycle (scenario1_cycles ss)
  /\ length (scenario2_cycles ss') = length (scenario1_cycles ss)
  /\ (forall k, nth_error (scenario2_cycles ss') k
                = option_map dca_cycle (nth_error (scenario1_cycles ss) k))
  /\ (forall c,
        loan_amount (dca_cycle c) = 0
        /\ loan_interest_rate (dca_cycle c) = 0
        /\ loan_repayment_years (dca_cycle c) = 0%nat
        /\ monthly_contribution (dca_cycle c) = m_repayment c
        /\ contribution_years (dca_cycle c)
           = Nat.max (loan_repayment_years c) (contribution_years c)
        /\ m_repayment (dca_cycle c) = 0)
  /\ (exists m,
        dca_mirror loan_only = [m]
        /\ monthly_contribution m = monthly_repayment 100000 (6 / 100) 20
        /\ contribution_years m = 20%nat
        /\ loan_amount m = 0).
Proof.
  intros ss'. subst ss'.
  assert (E : forall s, scenario2_cycles (build_dca_cycles_from_lumpsum s)
                        = map dca_cycle (scenario1_cycles s)).
  { intros s. unfold build_dca_cycles_from_lumpsum. simpl.
    now rewrite fold_append_map. }
  repeat apply conj.
  - reflexivity.
  - apply E.
  - now rewrite E, length_map.
  - intros k. rewrite E. apply nth_error_map.
  - intros c. repeat split.
  - exists (dca_cycle (mkCycle 100000 (6 / 100) 20 0 0
                         (monthly_repayment 100000 (6 / 100) (INR 20)))).
    unfold dca_mirror. rewrite E. repeat split.
    simpl monthly_contribution. f_equal. simpl. lra.
Qed.

(** C4, as the code has it.  Cycle [k] of scenario 1 takes
    [12 * loan_repayment_years * m_repayment
     + 12 * contribution_years * monthly_contribution] out of pocket and its
    mirror takes [12 * max(loan_repayment_years, contribution_years)
    * m_repayment], over the same number of years.  The two amounts agree
    exactly when [contribution_years * monthly_contribution] is
    [(max(loan_repayment_years, contribution_years) - loan_repayment_years)
     * m_repayment], which is the case of a cycle that only repays a loan
    (no contribution, and a contribution period no longer than the
    repayment period). *)
Theorem mirror_out_of_pocket (A : list Cycle) (a1 a2 : R) (age1 age2 : Z)
    (k : nat) (c : Cycle) :
  nth_error A k = Some c ->
  let B := dca_mirror A in
  let cash_A := cycle_out_of_pocket A a1 age1 k in
  let cash_B := cycle_out_of_pocket B a2 age2 k in
  nth_error B k = Some (dca_cycle c)
  /\ cycle_length_years (dca_cycle c) = cycle_length_years c
  /\ cash_A = 12 * INR (loan_repayment_years c) * m_repayment c
              + 12 * INR (contribution_years c) * monthly_contribution c
  /\ cash_B = 12 * INR (Nat.max (loan_repayment_years c) (contribution_years c))
              * m_repayment c
  /\ (cash_A = cash_B <->
      INR (contribution_years c) * monthly_contribution c
      = (INR (Nat.max (loan_repayment_years c) (contribution_years c))
         - INR (loan_repayment_years c)) * m_repayment c)
  /\ ((contribution_years c <= loan_repayment_years c)%nat ->
      monthly_contribution c = 0 \/ contribution_years c = 0%nat ->
      cash_A = cash_B).
Proof.
  intros Hc B cash_A cash_B.
  assert (HB : nth_error B k = Some (dca_cycle c)).
  { unfold B. rewrite dca_mirror_map, nth_error_map, Hc. reflexivity. }
  assert (EA : cash_A = 12 * INR (loan_repayment_years c) * m_repayment c
                        + 12 * INR (contribution_years c) * monthly_contribution c)
    by (apply cycle_out_of_pocket_formula; assumption).
  assert (EB : cash_B = 12 * INR (Nat.max (loan_repayment_years c)
                                          (contribution_years c))
                        * m_repayment c).
  { unfold cash_B. rewrite (cycle_out_of_pocket_formula _ _ _ _ _ HB).
    simpl. lra. }
  repeat apply conj; try assumption.
  - unfold cycle_length_years. simpl. reflexivity.
  - rewrite EA, EB. lra.
  - rewrite EA, EB. lra.
  - intros Hle Hor. rewrite EA, EB.
    rewrite Nat.max_l by assumption.
    destruct Hor as [-> | ->]; simpl; lra.
Qed.

(** The loan of 100000 at 6% over 20 years and its mirror inject the same
    cash. *)
Lemma mirror_out_of_pocket_witness :
  exists c,
    nth_error loan_only 0 = Some c
    /\ cycle_out_of_pocket loan_only (8 / 100) 30 0
       = cycle_out_of_pocket (dca_mirror loan_only) (8 / 100) 30 0.
Proof.
  eexists. split; [reflexivity|].
  apply (mirror_out_of_pocket loan_only (8 / 100) (8 / 100) 30 30 0 _ eq_refl).
  - simpl. lia.
  - right. reflexivity.
Defined.

(** C4, as the specification words it, fails as soon as the cycle has a
    contribution of its own: a year of 100 per month without any loan takes
    1200 out of pocket, and its mirror, which contributes the (zero)
    repayment, takes nothing. *)
Lemma mirror_drops_contribution :
  cycle_out_of_pocket contribution_only 0 30 0 = 1200
  /\ cycle_out_of_pocket (dca_mirror contribution_only) 0 30 0 = 0
  /\ cycle_out_of_pocket contribution_only 0 30 0
     <> cycle_out_of_pocket (dca_mirror contribution_only) 0 30 0.
Proof.
  assert (EA : cycle_out_of_pocket contribution_only 0 30 0 = 1200).
  { unfold cycle_out_of_pocket, simulate_multi_cycle_strategy_detailed.
    cbn -[Rplus Rminus Rmult IZR annual_rate2mensual_rate]. lra. }
  assert (EB : cycle_out_of_pocket (dca_mirror contribution_only) 0 30 0 = 0).
  { unfold cycle_out_of_pocket, simulate_multi_cycle_strategy_detailed.
    cbn -[Rplus Rminus Rmult IZR INR annual_rate2mensual_rate monthly_repayment].
    rewrite no_month_of_zero_years. lra. }
  rewrite EA, EB. repeat split; lra.
Qed.

(** ** Edge cases *)

(** C6. A cycle whose two durations are 0 appends no record and runs no
    monthly step, yet its [loan_amount] is added, ungrown, to the running
    portfolio; the other running totals are untouched.  The strategy made
    of the single cycle [{loan_amount=1000, loan_interest_rate=0,
    loan_repayment_years=0, monthly_contribution=0, contribution_years=0}]
    returns no record and [final_portfolio = 1000] at any rate. *)
Theorem zero_duration_cycle (la lir mc mr : R) :
  let c := mkCycle la lir 0 mc 0 mr in
  (forall rate st,
      let st' := cycle_step rate st c in
      annual_details st' = annual_details st
      /\ ages st' = ages st
      /\ net_gains_annual st' = net_gains_annual st
      /\ current_age st' = current_age st
      /\ total_external_investment st' = total_external_investment st
      /\ total_portfolio st' = total_portfolio st + la
      /\ emit_cycles rate st [c] = []
      /\ snapshots_cycles rate st [c] = [])
  /\ (forall a age,
      let res := simulate_multi_cycle_strategy_detailed zero_duration a age in
      res_annual_details res = []
      /\ res_ages res = []
      /\ res_net_gains_annual res = []
      /\ final_portfolio res = 1000).
Proof.
  intros c. split.
  - intros rate st st'. subst st' c. repeat split.
  - intros a age res. subst res. repeat split.
    unfold simulate_multi_cycle_strategy_detailed. simpl. lra.
Qed.

(** C7. Simulating the empty strategy returns no age, no net gain, no
    record, and [final_portfolio = final_net_gains = 0], at any rate and
    start age. *)
Theorem empty_strategy (a : R) (age : Z) :
  let res := simulate_multi_cycle_strategy_detailed [] a age in
  res_ages res = []
  /\ res_net_gains_annual res = []
  /\ res_annual_details res = []
  /\ final_portfolio res = 0
  /\ final_net_gains res = 0.
Proof.
  intros res. subst res. unfold simulate_multi_cycle_strategy_detailed. simpl.
  repeat split. lra.
Qed.

(** ** Non-negative amounts *)

(** C10. When every cycle has non-negative [loan_amount],
    [monthly_contribution] and [m_repayment] and the annual investment rate
    is non-negative, then so is the monthly rate; after each of the
    [12 * total_years] monthly steps the portfolio, the cash injected and
    the cash of the running year are non-negative; every record has
    non-negative [out_of_pocket_year], [portfolio_before], [portfolio_after]
    and cumulative cash injected; and the final portfolio and the final
    cash injected are non-negative. *)
Theorem amounts_stay_nonneg (cs : list Cycle) (a : R) (age : Z) :
  Forall cycle_nonneg cs -> 0 <= a ->
  let res := simulate_multi_cycle_strategy_detailed cs a age in
  0 <= annual_rate2mensual_rate a
  /\ length (monthly_snapshots cs a age) = (12 * total_years cs)%nat
  /\ Forall (fun s => 0 <= fst (fst s) /\ 0 <= snd (fst s) /\ 0 <= snd s)
            (monthly_snapshots cs a age)
  /\ length (res_annual_details res) = total_years cs
  /\ Forall (fun r => 0 <= out_of_pocket_year r /\ 0 <= portfolio_before r
                      /\ 0 <= portfolio_after r /\ 0 <= cumulative_injected r)
            (res_annual_details res)
  /\ 0 <= final_portfolio res
  /\ 0 <= final_portfolio res - final_net_gains res.
Proof.
  intros Hcs Ha res.
  pose proof (monthly_rate_nonneg a Ha) as Hm.
  destruct (cycles_nonneg (annual_rate2mensual_rate a) cs (init_state age)
              Hm Hcs) as ((Htp & Htei) & Hr & Hs); [simpl; lra | simpl; lra |].
  subst res. rewrite simulated_details.
  unfold simulate_multi_cycle_strategy_detailed, monthly_snapshots.
  cbn [final_portfolio final_net_gains].
  repeat apply conj; try assumption.
  - apply length_snapshots_cycles.
  - apply length_emit_cycles.
  - lra.
Qed.

Lemma save_then_borrow_nonneg : Forall cycle_nonneg save_then_borrow.
Proof.
  unfold save_then_borrow, add_cycle, cycle_nonneg. simpl app.
  repeat constructor; cbn [loan_amount monthly_contribution m_repayment];
    try rewrite no_month_of_zero_years; lra.
Defined.

(** [save_then_borrow] at the default investment rate. *)
Lemma amounts_stay_nonneg_witness :
  0 <= final_portfolio
         (simulate_multi_cycle_strategy_detailed save_then_borrow (8 / 100) 30).
Proof.
  apply (amounts_stay_nonneg save_then_borrow (8 / 100) 30
           save_then_borrow_nonneg); lra.
Defined.

(** * Further properties of the code *)

(** ** Rates and compounding *)

Lemma pow_int_of_nat (x : R) (k : nat) : Py.pow_int x (Z.of_nat k) = x ^ k.
Proof. unfold Py.pow_int. symmetry. apply pow_powerRZ. Qed.

Lemma monthly_factor_pos (a : R) : 0 < 1 + annual_rate2mensual_rate a.
Proof.
  unfold annual_rate2mensual_rate, Py.pow_float, Rpower.
  match goal with |- 0 < 1 + (exp ?e - 1) => pose proof (exp_pos e) end. lra.
Qed.

Lemma monthly_factor_pow12 (a : R) :
  -1 < a -> (1 + annual_rate2mensual_rate a) ^ 12 = 1 + a.
Proof.
  intros Ha. unfold annual_rate2mensual_rate.
  replace (1 + (Py.pow_float (1 + a) (1 / 12) - 1))
    with (Py.pow_float (1 + a) (1 / 12)) by ring.
  rewrite <- (pow_int_of_nat _ 12). apply pow_float_twelfth_pow. lra.
Qed.

(** X1. The monthly rate has the sign of the annual rate, stays above -1,
    and for a non-negative annual rate it is at most a twelfth of it: the
    conversion is geometric, and never above the arithmetic one. *)
Theorem monthly_rate_bounds (a : R) :
  -1 < a ->
  -1 < annual_rate2mensual_rate a
  /\ (0 <= a -> 0 <= annual_rate2mensual_rate a <= a / 12)
  /\ (0 < a -> 0 < annual_rate2mensual_rate a)
  /\ (a < 0 -> annual_rate2mensual_rate a < 0).
Proof.
  intros Ha. pose proof (monthly_factor_pos a) as Hq.
  pose proof (monthly_factor_pow12 a Ha) as H12.
  set (m := annual_rate2mensual_rate a) in *.
  assert (Hneg : a < 0 -> m < 0).
  { intros Hlt. destruct (Rlt_le_dec m 0) as [|Hm]; [assumption|].
    assert (1 <= (1 + m) ^ 12) by (apply pow_R1_Rle; lra). lra. }
  assert (Hbern : 0 < m -> 1 + 12 * m <= 1 + a).
  { intros Hm. rewrite <- H12.
    replace 12 with (INR 12) at 1 by (simpl; lra). now apply poly. }
  assert (Hpos : 0 < a -> 0 < m).
  { intros Hlt. destruct (Rlt_le_dec 0 m) as [|Hm]; [assumption|].
    destruct (Req_dec m 0) as [E|E].
    - rewrite E, Rplus_0_r, pow1 in H12. lra.
    - assert (0 <= (1 + m) ^ 12 < 1) by (apply pow_lt_1_compat; [lra | lia]).
      lra. }
  repeat apply conj; try assumption; try lra.
  intros H0. split.
  - fold m. apply (monthly_rate_nonneg a H0).
  - destruct (Rlt_le_dec 0 m) as [Hm|Hm]; [specialize (Hbern Hm); lra|].
    pose proof (monthly_rate_nonneg a H0). fold m in H. lra.
Qed.

(** At the default investment rate of the form, 8%. *)
Lemma monthly_rate_bounds_witness :
  0 <= annual_rate2mensual_rate (8 / 100) <= 8 / 100 / 12.
Proof.
  apply (monthly_rate_bounds (8 / 100)); lra.
Defined.

(** X2. Growth composes: growing for [k1] months and then for [k2] months
    is growing for [k1 + k2] months (for a rate other than -1), and [k]
    years of monthly growth at the converted rate are [k] annual
    compoundings at the annual rate. *)
Theorem compound_growth_composes (p r a : R) (k1 k2 : Z) (k : nat) :
  1 + r <> 0 -> -1 < a ->
  compound_growth (compound_growth p r k1) r k2 = compound_growth p r (k1 + k2)
  /\ compound_growth p r 0 = p
  /\ compound_growth p (annual_rate2mensual_rate a) (12 * Z.of_nat k)
     = p * (1 + a) ^ k.
Proof.
  intros Hr Ha. unfold compound_growth, Py.pow_int. repeat apply conj.
  - rewrite powerRZ_add by assumption. ring.
  - simpl. ring.
  - replace (12 * Z.of_nat k)%Z with (Z.of_nat (12 * k)) by lia.
    rewrite <- pow_powerRZ, pow_mult, monthly_factor_pow12 by assumption.
    reflexivity.
Qed.

(** Two years at 8% a year, in two steps of a year. *)
Lemma compound_growth_composes_witness :
  compound_growth (compound_growth 1000 (annual_rate2mensual_rate (8 / 100)) 12)
                  (annual_rate2mensual_rate (8 / 100)) 12
  = compound_growth 1000 (annual_rate2mensual_rate (8 / 100)) (12 + 12)
  /\ compound_growth 1000 (annual_rate2mensual_rate (8 / 100)) (12 * Z.of_nat 2)
     = 1000 * (1 + 8 / 100) ^ 2.
Proof.
  pose proof (monthly_factor_pos (8 / 100)) as Hq.
  destruct (compound_growth_composes 1000 (annual_rate2mensual_rate (8 / 100))
              (8 / 100) 12 12 2) as (H1 & _ & H3); [lra | lra |].
  split; assumption.
Defined.

(** ** Amortization *)

Lemma Rsum_const {A : Type} (l : list A) (x : R) :
  Rsum (map (fun _ => x) l) = INR (length l) * x.
Proof.
  induction l as [|a l IH]; [simpl; lra|].
  change (Rsum (map (fun _ => x) (a :: l))) with (x + Rsum (map (fun _ => x) l)).
  rewrite IH. change (length (a :: l)) with (S (length l)). rewrite S_INR. lra.
Qed.

Lemma Rsum_le {A : Type} (f g : A -> R) (l : list A) :
  (forall a, In a l -> f a <= g a) -> Rsum (map f l) <= Rsum (map g l).
Proof.
  induction l as [|a l IH]; intros H; simpl; [lra|].
  assert (f a <= g a) by (apply H; now left).
  assert (Rsum (map f l) <= Rsum (map g l)) by (apply IH; intros; apply H; now right).
  lra.
Qed.

(** Payments of [c] discounted at the factor [q], over [n] months. *)
Lemma discounted_sum (q c : R) (n : nat) :
  q <> 0 ->
  Rsum (map (fun k => c / q ^ k) (seq 1 n)) * (q - 1) * q ^ n = c * (q ^ n - 1).
Proof.
  intros Hq. induction n as [|n IH].
  - simpl. lra.
  - rewrite seq_S, map_app, Rsum_app. cbn [map Rsum fold_right Nat.add].
    assert (Hn : q ^ S n <> 0) by now apply pow_nonzero.
    transitivity
      (Rsum (map (fun k => c / q ^ k) (seq 1 n)) * (q - 1) * q ^ n * q
       + c * (q - 1)).
    + simpl. field. split; [now apply pow_nonzero | assumption].
    + rewrite IH. simpl. ring.
Qed.

Lemma months_nonneg (Y : R) : 0 <= Y -> (0 <= Py.int (Y * 12))%Z.
Proof.
  intros HY. rewrite py_int_floor by lra.
  pose proof (base_Int_part (Y * 12)) as [_ H].
  assert (Hz : (-1 < Int_part (Y * 12))%Z) by (apply lt_IZR; lra).
  lia.
Qed.

Lemma balance_closed_form (q pay P : R) (k : nat) :
  Nat.iter k (fun b => b * q - pay) P * (q - 1)
  = P * q ^ k * (q - 1) - pay * (q ^ k - 1).
Proof.
  induction k as [|k IH].
  - simpl. ring.
  - change (Nat.iter (S k) (fun b => b * q - pay) P)
      with (Nat.iter k (fun b => b * q - pay) P * q - pay).
    transitivity (Nat.iter k (fun b => b * q - pay) P * (q - 1) * q
                  - pay * (q - 1)); [ring|].
    rewrite IH. simpl. ring.
Qed.

Lemma balance_without_interest (pay P : R) (k : nat) :
  Nat.iter k (fun b => b * 1 - pay) P = P - INR k * pay.
Proof.
  induction k as [|k IH].
  - simpl. ring.
  - change (Nat.iter (S k) (fun b => b * 1 - pay) P)
      with (Nat.iter k (fun b => b * 1 - pay) P * 1 - pay).
    rewrite IH, S_INR. ring.
Qed.

(** The payment in terms of the number of months as a [nat]. *)
Lemma monthly_repayment_annuity_nat (P r Y : R) (n : nat) :
  Py.int (Y * 12) = Z.of_nat n -> (0 < n)%nat ->
  let m := annual_rate2mensual_rate r in
  (m = 0 -> monthly_repayment P r Y = P / INR n)
  /\ (m <> 0 ->
      monthly_repayment P r Y = P * (m * (1 + m) ^ n / ((1 + m) ^ n - 1))).
Proof.
  intros En Hn m. subst m. split; intros Hm.
  - rewrite monthly_repayment_straight_line by (rewrite ?En; assumption || lia).
    now rewrite En, <- INR_IZR_INZ.
  - rewrite monthly_repayment_annuity by (rewrite ?En; assumption || lia).
    now rewrite En, pow_int_of_nat.
Qed.

Lemma growth_factor_not_one (q : R) (n : nat) :
  0 < q -> q <> 1 -> (0 < n)%nat -> q ^ n <> 1.
Proof.
  intros Hq Hne Hn. destruct (Rlt_le_dec q 1) as [Hlt|Hge].
  - assert (0 <= q ^ n < 1) by (apply pow_lt_1_compat; [lra | assumption]). lra.
  - assert (1 < q ^ n) by (apply Rlt_pow_R1; [lra | assumption]). lra.
Qed.

(** The [n] payments, discounted at the monthly rate, are worth the
    principal. *)
Lemma discounted_payments (P r Y : R) :
  -1 < r -> (0 < Py.int (Y * 12))%Z ->
  let m := annual_rate2mensual_rate r in
  let n := Z.to_nat (Py.int (Y * 12)) in
  let pay := monthly_repayment P r Y in
  Rsum (map (fun k => pay / (1 + m) ^ k) (seq 1 n)) = P.
Proof.
  intros Hr Hnz m n pay.
  assert (En : Py.int (Y * 12) = Z.of_nat n) by (unfold n; lia).
  assert (Hn : (0 < n)%nat) by (unfold n; lia).
  assert (HnR : 0 < INR n) by (apply lt_0_INR; assumption).
  pose proof (monthly_factor_pos r) as Hq. fold m in Hq.
  destruct (monthly_repayment_annuity_nat P r Y n En Hn) as [H0 H1].
  fold m in H0, H1. fold pay in H0, H1.
  destruct (Req_dec m 0) as [Hm|Hm].
  - specialize (H0 Hm). rewrite Hm, Rplus_0_r.
    rewrite (map_ext (fun k => pay / 1 ^ k) (fun _ => pay))
      by (intros k; rewrite pow1; field).
    rewrite Rsum_const, length_seq, H0. field. lra.
  - specialize (H1 Hm).
    assert (Hqn : (1 + m) ^ n <> 1)
      by (apply growth_factor_not_one; [assumption | lra | assumption]).
    assert (Hqp : 0 < (1 + m) ^ n) by (apply pow_lt; assumption).
    assert (Hpay : pay * ((1 + m) ^ n - 1) = P * m * (1 + m) ^ n)
      by (rewrite H1; field; lra).
    pose proof (discounted_sum (1 + m) pay n ltac:(lra)) as D.
    replace (1 + m - 1) with m in D by ring. rewrite Hpay in D.
    apply (Rmult_eq_reg_r (m * (1 + m) ^ n)); [lra|].
    apply Rmult_integral_contrapositive_currified; lra.
Qed.

(** X3. The payment amortizes the loan: for a rate above -1 and at least
    one month, the [n] payments of [monthly_repayment(P, r, Y)] discounted
    at the monthly rate sum to [P], and a balance that starts at [P], earns
    the monthly rate and is reduced by the payment each month is 0 after
    [n] months. *)
Theorem repayment_amortizes_the_loan (P r Y : R) :
  -1 < r -> (0 < Py.int (Y * 12))%Z ->
  let m := annual_rate2mensual_rate r in
  let n := Z.to_nat (Py.int (Y * 12)) in
  let pay := monthly_repayment P r Y in
  Rsum (map (fun k => pay / (1 + m) ^ k) (seq 1 n)) = P
  /\ Nat.iter n (fun balance => balance * (1 + m) - pay) P = 0.
Proof.
  intros Hr Hnz m n pay. split; [now apply discounted_payments|].
  assert (En : Py.int (Y * 12) = Z.of_nat n) by (unfold n; lia).
  assert (Hn : (0 < n)%nat) by (unfold n; lia).
  assert (HnR : 0 < INR n) by (apply lt_0_INR; assumption).
  pose proof (monthly_factor_pos r) as Hq. fold m in Hq.
  destruct (monthly_repayment_annuity_nat P r Y n En Hn) as [H0 H1].
  fold m in H0, H1. fold pay in H0, H1.
  destruct (Req_dec m 0) as [Hm|Hm].
  - specialize (H0 Hm). rewrite Hm, Rplus_0_r.
    rewrite balance_without_interest, H0. field. lra.
  - specialize (H1 Hm).
    assert (Hqn : (1 + m) ^ n <> 1)
      by (apply growth_factor_not_one; [assumption | lra | assumption]).
    assert (Hpay : pay * ((1 + m) ^ n - 1) = P * m * (1 + m) ^ n)
      by (rewrite H1; field; lra).
    pose proof (balance_closed_form (1 + m) pay P n) as B.
    replace (1 + m - 1) with m in B by ring. rewrite Hpay in B.
    apply (Rmult_eq_reg_r m); [lra | assumption].
Qed.

(** 1200 over one year without interest: twelve payments of 100. *)
Lemma repayment_amortizes_the_loan_witness :
  Nat.iter (Z.to_nat (Py.int (1 * 12)))
           (fun balance =>
              balance * (1 + annual_rate2mensual_rate 0)
              - monthly_repayment 1200 0 1)
           1200 = 0.
Proof.
  apply (repayment_amortizes_the_loan 1200 0 1); [lra|].
  replace (1 * 12) with (IZR 12) by lra. rewrite py_int_IZR. lia.
Defined.

Lemma monthly_repayment_nonneg (P r Y : R) :
  0 <= P -> 0 <= r -> 0 <= Y -> 0 <= monthly_repayment P r Y.
Proof.
  intros HP Hr HY.
  pose proof (months_nonneg Y HY) as Hz.
  set (n := Z.to_nat (Py.int (Y * 12))).
  assert (En : Py.int (Y * 12) = Z.of_nat n) by (unfold n; lia).
  pose proof (monthly_rate_nonneg r Hr) as Hm.
  destruct (Nat.eq_dec n 0) as [Hn0|Hn0].
  - rewrite monthly_repayment_no_month; [lra | rewrite En, Hn0; reflexivity].
  - assert (Hn : (0 < n)%nat) by lia.
    assert (HnR : 0 < INR n) by (apply lt_0_INR; assumption).
    destruct (monthly_repayment_annuity_nat P r Y n En Hn) as [H0 H1].
    destruct (Req_dec (annual_rate2mensual_rate r) 0) as [E|E].
    + rewrite (H0 E). apply Rmult_le_pos; [assumption|].
      apply Rlt_le, Rinv_0_lt_compat; assumption.
    + rewrite (H1 E).
      assert (1 < (1 + annual_rate2mensual_rate r) ^ n)
        by (apply Rlt_pow_R1; [lra | assumption]).
      apply Rmult_le_pos; [assumption|].
      apply Rmult_le_pos; [nra|].
      apply Rlt_le, Rinv_0_lt_compat. lra.
Qed.

(** X4. A loan of a non-negative principal at a non-negative rate over a
    non-negative duration has a non-negative payment, and when it lasts at
    least a month the [n] payments add up to at least the principal
    (exactly the principal at rate 0). *)
Theorem repayment_covers_principal (P r Y : R) :
  0 <= P -> 0 <= r -> 0 <= Y ->
  let n := Z.to_nat (Py.int (Y * 12)) in
  let pay := monthly_repayment P r Y in
  0 <= pay
  /\ ((0 < n)%nat -> P <= INR n * pay)
  /\ ((0 < n)%nat -> r = 0 -> INR n * pay = P).
Proof.
  intros HP Hr HY n pay.
  pose proof (months_nonneg Y HY) as Hz.
  assert (En : Py.int (Y * 12) = Z.of_nat n) by (unfold n; lia).
  pose proof (monthly_rate_nonneg r Hr) as Hm.
  assert (Hpay : 0 <= pay) by now apply monthly_repayment_nonneg.
  repeat apply conj; [assumption | |].
  - intros Hn.
    pose proof (discounted_payments P r Y ltac:(lra) ltac:(lia)) as D.
    fold n pay in D. rewrite <- D at 1.
    replace (INR n * pay) with (Rsum (map (fun _ : nat => pay) (seq 1 n)))
      by (rewrite Rsum_const, length_seq; reflexivity).
    apply Rsum_le. intros k _.
    assert (1 <= (1 + annual_rate2mensual_rate r) ^ k)
      by (apply pow_R1_Rle; lra).
    apply (Rmult_le_reg_r ((1 + annual_rate2mensual_rate r) ^ k)); [lra|].
    unfold Rdiv. rewrite Rmult_assoc, Rinv_l by lra. nra.
  - intros Hn ->.
    assert (HnR : 0 < INR n) by (apply lt_0_INR; assumption).
    destruct (monthly_repayment_annuity_nat P 0 Y n En Hn) as [H0 _].
    fold pay in H0. rewrite (H0 monthly_rate_of_zero). field. lra.
Qed.

(** The default loan of the form: 100000 at 6% over 20 years. *)
Lemma repayment_covers_principal_witness :
  0 <= monthly_repayment 100000 (6 / 100) 20.
Proof.
  apply (repayment_covers_principal 100000 (6 / 100) 20); lra.
Defined.

(** ** Bookkeeping of the returned lists *)

Section Bookkeeping.

Variable rate : R.

Lemma years_bookkeeping (c : Cycle) (ys : list nat) (st : SimState) :
  let st' := fold_left (year_step rate c) ys st in
  let recs := emit_years rate c st ys in
  ages st' = ages st ++ map age_end recs
  /\ net_gains_annual st' = net_gains_annual st ++ map net_gains_end_of_year recs
  /\ current_age st' = (current_age st + Z.of_nat (length ys))%Z
  /\ total_external_investment st'
     = total_external_investment st + Rsum (map out_of_pocket_year recs)
  /\ forall j r, nth_error recs j = Some r ->
       age_end r = (current_age st + Z.of_nat j + 1)%Z
       /\ year_index r = (length (ages st) + j + 1)%nat.
Proof.
  revert st. induction ys as [|y ys IH]; intros st st' recs; subst st' recs.
  - cbn [fold_left emit_years map length Rsum fold_right].
    rewrite !app_nil_r. repeat apply conj; try reflexivity; try lia; try lra.
    intros [|j] r H; discriminate.
  - destruct (IH (year_step rate c st y)) as (Ha & Hn & Hc & Ht & Hr).
    destruct (year_record_fields rate c st y) as (_ & _ & _ & _ & _ & Hage & Hidx).
    set (r0 := year_record rate c st y) in *.
    assert (E1 : ages (year_step rate c st y) = ages st ++ [age_end r0])
      by reflexivity.
    assert (E2 : net_gains_annual (year_step rate c st y)
                 = net_gains_annual st ++ [net_gains_end_of_year r0])
      by reflexivity.
    assert (E3 : current_age (year_step rate c st y) = age_end r0)
      by reflexivity.
    assert (E4 : total_external_investment (year_step rate c st y)
                 = total_external_investment st + out_of_pocket_year r0)
      by reflexivity.
    rewrite E1 in Ha, Hr. rewrite E2 in Hn. rewrite E3, Hage in Hc, Hr.
    rewrite E4 in Ht.
    cbn [fold_left emit_years map length].
    rewrite Ha, Hn, Hc, Ht, <- !app_assoc.
    subst r0. repeat apply conj; try reflexivity; try lia.
    + unfold Rsum. cbn [fold_right]. lra.
    + intros [|j] r H.
      * injection H as <-. split; [lia | rewrite Hidx; lia].
      * cbn [nth_error] in H. destruct (Hr j r H) as [H1 H2].
        rewrite length_app in H2. cbn [length] in H2. split; lia.
Qed.

Lemma cycles_bookkeeping (cs : list Cycle) (st : SimState) :
  let st' := run_cycles rate st cs in
  let recs := emit_cycles rate st cs in
  ages st' = ages st ++ map age_end recs
  /\ net_gains_annual st' = net_gains_annual st ++ map net_gains_end_of_year recs
  /\ current_age st' = (current_age st + Z.of_nat (total_years cs))%Z
  /\ total_external_investment st'
     = total_external_investment st + Rsum (map out_of_pocket_year recs)
  /\ forall j r, nth_error recs j = Some r ->
       age_end r = (current_age st + Z.of_nat j + 1)%Z
       /\ year_index r = (length (ages st) + j + 1)%nat.
Proof.
  revert st. induction cs as [|c cs IH]; intros st st' recs; subst st' recs.
  - cbn [run_cycles fold_left emit_cycles map Rsum fold_right].
    rewrite !app_nil_r. repeat apply conj; try reflexivity; try lra.
    + unfold total_years. simpl. lia.
    + intros [|j] r H; discriminate.
  - destruct (IH (cycle_step rate st c)) as (Ha & Hn & Hc & Ht & Hr).
    destruct (years_bookkeeping c (seq 0 (cycle_length_years c)) (invest_loan st c))
      as (Ha0 & Hn0 & Hc0 & Ht0 & Hr0).
    fold (cycle_step rate st c) in Ha0, Hn0, Hc0, Ht0.
    fold (emit_cycle rate st c) in Ha0, Hn0, Ht0, Hr0.
    rewrite length_seq in Hc0.
    cbn [ages net_gains_annual current_age total_external_investment invest_loan]
      in Ha0, Hn0, Hc0, Ht0, Hr0.
    change (run_cycles rate st (c :: cs))
      with (run_cycles rate (cycle_step rate st c) cs).
    cbn [emit_cycles].
    change (total_years (c :: cs))
      with (cycle_length_years c + total_years cs)%nat.
    rewrite Ha, Hn, Hc, Ht, Ha0, Hn0, Hc0, Ht0.
    rewrite !map_app, Rsum_app, <- !app_assoc.
    repeat apply conj; try reflexivity; try lia; try lra.
    intros j r H. rewrite nth_error_app, length_emit_cycle in H.
    destruct (Nat.ltb_spec j (cycle_length_years c)) as [Hlt|Hge].
    + apply Hr0. exact H.
    + destruct (Hr _ _ H) as [H1 H2]. rewrite Hc0 in H1.
      rewrite Ha0, length_app, length_map, length_emit_cycle in H2.
      split; lia.
Qed.

Lemma run_cycles_app (cs cs' : list Cycle) (st : SimState) :
  run_cycles rate st (cs ++ cs') = run_cycles rate (run_cycles rate st cs) cs'.
Proof. unfold run_cycles. apply fold_left_app. Qed.

Lemma emit_cycles_app (cs cs' : list Cycle) (st : SimState) :
  emit_cycles rate st (cs ++ cs')
  = emit_cycles rate st cs ++ emit_cycles rate (run_cycles rate st cs) cs'.
Proof.
  revert st. induction cs as [|c cs IH]; intros st; [reflexivity|].
  cbn [app emit_cycles]. rewrite IH, <- app_assoc. reflexivity.
Qed.

Lemma cash_of_cycles (cs : list Cycle) (st : SimState) :
  Rsum (map out_of_pocket_year (emit_cycles rate st cs))
  = Rsum (map cycle_cash cs).
Proof.
  revert st. induction cs as [|c cs IH]; intros st; [reflexivity|].
  cbn [emit_cycles map]. rewrite map_app, Rsum_app, IH, emit_cycle_out_of_pocket.
  reflexivity.
Qed.

End Bookkeeping.

Lemma map_by_index {A B : Type} (f : A -> B) (g : nat -> B) (l : list A) (s : nat) :
  (forall i x, nth_error l i = Some x -> f x = g (s + i)%nat) ->
  map f l = map g (seq s (length l)).
Proof.
  revert s. induction l as [|x l IH]; intros s H; [reflexivity|].
  cbn [map length seq]. f_equal.
  - rewrite (H 0%nat x eq_refl). f_equal. lia.
  - apply IH. intros i y Hy. rewrite (H (S i) y Hy). f_equal. lia.
Qed.

Lemma simulated_ages (cs : list Cycle) (a : R) (age : Z) :
  res_ages (simulate_multi_cycle_strategy_detailed cs a age)
  = map (fun i => (age + Z.of_nat i + 1)%Z) (seq 0 (total_years cs)).
Proof.
  unfold simulate_multi_cycle_strategy_detailed. cbn [res_ages].
  destruct (cycles_bookkeeping (annual_rate2mensual_rate a) cs (init_state age))
    as (Ha & _ & _ & _ & Hr).
  cbn [init_state ages current_age app] in Ha, Hr.
  rewrite Ha, <- (length_emit_cycles (annual_rate2mensual_rate a) cs (init_state age)).
  apply map_by_index. intros i r H. apply (Hr i r H).
Qed.

(** X5. The three returned lists are index-aligned and have one entry per
    simulated year: entry [i] of [ages] is [start_age + i + 1] and is the
    [age_end] of record [i], whose [year_index] is [i + 1]; entry [i] of
    [net_gains_annual] is the [net_gains_end_of_year] of record [i]. *)
Theorem returned_lists_are_aligned (cs : list Cycle) (a : R) (age : Z) :
  let res := simulate_multi_cycle_strategy_detailed cs a age in
  length (res_annual_details res) = total_years cs
  /\ res_ages res = map age_end (res_annual_details res)
  /\ res_net_gains_annual res
     = map net_gains_end_of_year (res_annual_details res)
  /\ res_ages res
     = map (fun i => (age + Z.of_nat i + 1)%Z) (seq 0 (total_years cs))
  /\ map year_index (res_annual_details res) = seq 1 (total_years cs).
Proof.
  intros res. subst res. rewrite simulated_details.
  unfold simulate_multi_cycle_strategy_detailed.
  cbn [res_ages res_net_gains_annual].
  destruct (cycles_bookkeeping (annual_rate2mensual_rate a) cs (init_state age))
    as (Ha & Hn & _ & _ & Hr).
  cbn [init_state ages net_gains_annual current_age app length] in Ha, Hn, Hr.
  pose proof (length_emit_cycles (annual_rate2mensual_rate a) cs (init_state age))
    as Hlen.
  repeat apply conj; try assumption.
  - apply (simulated_ages cs a age).
  - rewrite <- seq_shift, <- Hlen, <- (map_id (seq 0 _)) at 1.
    rewrite map_map. apply map_by_index.
    intros i r H. destruct (Hr i r H) as [_ ->]. lia.
Qed.

Lemma simulated_injected (cs : list Cycle) (a : R) (age : Z) :
  final_portfolio (simulate_multi_cycle_strategy_detailed cs a age)
  - final_net_gains (simulate_multi_cycle_strategy_detailed cs a age)
  = Rsum (map cycle_cash cs).
Proof.
  unfold simulate_multi_cycle_strategy_detailed.
  cbn [final_portfolio final_net_gains].
  destruct (cycles_bookkeeping (annual_rate2mensual_rate a) cs (init_state age))
    as (_ & _ & _ & Ht & _).
  rewrite cash_of_cycles in Ht.
  cbn [init_state total_external_investment] in Ht. rewrite Ht. ring.
Qed.

(** X6. The cash injected that the summary table derives from the returned
    values, [final_portfolio - final_net_gains], is the sum of
    [out_of_pocket_year] over all the records, and is the sum over the
    cycles of [12 * loan_repayment_years * m_repayment
    + 12 * contribution_years * monthly_contribution]; neither the
    investment rate nor the borrowed principal enters it. *)
Theorem injected_cash_total (cs : list Cycle) (a : R) (age : Z) :
  let res := simulate_multi_cycle_strategy_detailed cs a age in
  final_portfolio res - final_net_gains res
  = Rsum (map out_of_pocket_year (res_annual_details res))
  /\ final_portfolio res - final_net_gains res = Rsum (map cycle_cash cs).
Proof.
  intros res. subst res. split; [|apply simulated_injected].
  rewrite simulated_details.
  unfold simulate_multi_cycle_strategy_detailed.
  cbn [final_portfolio final_net_gains].
  destruct (cycles_bookkeeping (annual_rate2mensual_rate a) cs (init_state age))
    as (_ & _ & _ & Ht & _).
  cbn [init_state total_external_investment] in Ht.
  rewrite Ht. ring.
Qed.

Lemma firstn_prefix {A : Type} (l l' : list A) :
  firstn (length l) (l ++ l') = l.
Proof.
  rewrite firstn_app, Nat.sub_diag, firstn_O, app_nil_r. apply firstn_all.
Qed.

(** X7. Cycles appended to a strategy never change the years before them:
    the records, ages and net gains of [cs] are the first
    [total_years cs] entries of those of [cs ++ cs'], which has
    [total_years cs'] more. *)
Theorem later_cycles_keep_earlier_years (cs cs' : list Cycle) (a : R) (age : Z) :
  let res := simulate_multi_cycle_strategy_detailed cs a age in
  let res' := simulate_multi_cycle_strategy_detailed (cs ++ cs') a age in
  firstn (total_years cs) (res_annual_details res') = res_annual_details res
  /\ firstn (total_years cs) (res_ages res') = res_ages res
  /\ firstn (total_years cs) (res_net_gains_annual res')
     = res_net_gains_annual res
  /\ length (res_annual_details res') = (total_years cs + total_years cs')%nat.
Proof.
  intros res res'. subst res res'.
  set (rate := annual_rate2mensual_rate a).
  assert (Hd : forall l, res_annual_details
                           (simulate_multi_cycle_strategy_detailed l a age)
                         = emit_cycles rate (init_state age) l)
    by (intros l; apply simulated_details).
  assert (Ha : forall l, res_ages (simulate_multi_cycle_strategy_detailed l a age)
                         = map age_end (emit_cycles rate (init_state age) l)).
  { intros l.
    destruct (cycles_bookkeeping rate l (init_state age)) as (H & _). exact H. }
  assert (Hn : forall l, res_net_gains_annual
                           (simulate_multi_cycle_strategy_detailed l a age)
                         = map net_gains_end_of_year
                               (emit_cycles rate (init_state age) l)).
  { intros l.
    destruct (cycles_bookkeeping rate l (init_state age)) as (_ & H & _). exact H. }
  rewrite !Hd, !Ha, !Hn, emit_cycles_app, !map_app.
  pose proof (length_emit_cycles rate cs (init_state age)) as Hlen.
  repeat apply conj.
  - rewrite <- Hlen. apply firstn_prefix.
  - rewrite <- Hlen, <- (length_map age_end). apply firstn_prefix.
  - rewrite <- Hlen, <- (length_map net_gains_end_of_year). apply firstn_prefix.
  - now rewrite length_app, !length_emit_cycles.
Qed.

(** X8. What the final values are.  When the last cycle has at least one
    year, [final_portfolio] and [final_net_gains] are the [portfolio_after]
    and the [net_gains_end_of_year] of the last record (the last point of
    the chart).  When the last cycle has no year, the three lists are those
    of the strategy without it, and both final values are those of the
    strategy without it plus its [loan_amount]. *)
Theorem final_values (cs : list Cycle) (c : Cycle) (a : R) (age : Z) :
  let res := simulate_multi_cycle_strategy_detailed cs a age in
  let res' := simulate_multi_cycle_strategy_detailed (cs ++ [c]) a age in
  ((0 < cycle_length_years c)%nat ->
   exists r,
     nth_error (res_annual_details res')
               (total_years cs + cycle_length_years c - 1) = Some r
     /\ length (res_annual_details res')
        = (total_years cs + cycle_length_years c)%nat
     /\ final_portfolio res' = portfolio_after r
     /\ final_net_gains res' = net_gains_end_of_year r)
  /\ (cycle_length_years c = 0%nat ->
      res_annual_details res' = res_annual_details res
      /\ res_ages res' = res_ages res
      /\ res_net_gains_annual res' = res_net_gains_annual res
      /\ final_portfolio res' = final_portfolio res + loan_amount c
      /\ final_net_gains res' = final_net_gains res + loan_amount c).
Proof.
  intros res res'. subst res res'.
  set (rate := annual_rate2mensual_rate a).
  rewrite !simulated_details. fold rate.
  unfold simulate_multi_cycle_strategy_detailed. fold rate.
  cbn [final_portfolio final_net_gains res_ages res_net_gains_annual].
  rewrite run_cycles_app, emit_cycles_app.
  set (st := run_cycles rate (init_state age) cs).
  change (run_cycles rate st [c]) with (cycle_step rate st c).
  cbn [emit_cycles]. rewrite app_nil_r.
  pose proof (length_emit_cycles rate cs (init_state age)) as Hlen.
  split.
  - intros Hpos.
    destruct (cycle_length_years c) as [|n] eqn:En; [lia|].
    destruct (nth_error (emit_cycle rate st c) n) as [r|] eqn:Er.
    2:{ apply nth_error_None in Er. rewrite length_emit_cycle in Er. lia. }
    exists r.
    destruct (state_after_years rate c (seq 0 (cycle_length_years c))
                (invest_loan st c) n r) as [Htp Htei].
    { rewrite length_seq. exact En. }
    { exact Er. }
    fold (cycle_step rate st c) in Htp, Htei.
    repeat apply conj.
    + rewrite nth_error_app, Hlen.
      replace (total_years cs + S n - 1 <? total_years cs)%nat with false
        by (symmetry; apply Nat.ltb_ge; lia).
      replace (total_years cs + S n - 1 - total_years cs)%nat with n by lia.
      exact Er.
    + rewrite length_app, Hlen, length_emit_cycle, En. reflexivity.
    + exact Htp.
    + rewrite Htp, Htei. ring.
  - intros Hz. rewrite (cycle_step_zero rate st c Hz).
    assert (E : emit_cycle rate st c = [])
      by (unfold emit_cycle; rewrite Hz; reflexivity).
    rewrite E, app_nil_r. cbn [invest_loan ages net_gains_annual
                                total_portfolio total_external_investment].
    repeat apply conj; try reflexivity; ring.
Qed.

(** A year of contributions, then a second cycle of one year. *)
Lemma final_values_witness :
  exists r,
    nth_error (res_annual_details
                 (simulate_multi_cycle_strategy_detailed save_then_borrow 0 30)) 1
    = Some r
    /\ final_portfolio (simulate_multi_cycle_strategy_detailed save_then_borrow 0 30)
       = portfolio_after r
    /\ final_net_gains (simulate_multi_cycle_strategy_detailed save_then_borrow 0 30)
       = net_gains_end_of_year r.
Proof.
  destruct (final_values contribution_only
              (mkCycle 1000 0 0 100 1 (monthly_repayment 1000 0 (INR 0))) 0 30)
    as [H _].
  destruct (H ltac:(unfold cycle_length_years; simpl; lia)) as (r & Hr & _ & Hp & Hn).
  exists r. repeat split; assumption.
Defined.

(** ** A year in closed form *)

Lemma Rsum_scal {A : Type} (f : A -> R) (q : R) (l : list A) :
  Rsum (map (fun x => q * f x) l) = q * Rsum (map f l).
Proof. induction l as [|x l IH]; simpl; [lra | rewrite IH; lra]. Qed.

Lemma geometric_step (q : R) (n : nat) :
  Rsum (map (fun j => q ^ j) (seq 1 (S n)))
  = q + q * Rsum (map (fun j => q ^ j) (seq 1 n)).
Proof.
  cbn [seq map]. rewrite <- seq_shift, map_map.
  change (Rsum (q ^ 1 :: map (fun j => q ^ S j) (seq 1 n)))
    with (q ^ 1 + Rsum (map (fun j => q * q ^ j) (seq 1 n))).
  rewrite Rsum_scal, pow_1. reflexivity.
Qed.

Lemma annuity_factor_zero : annuity_factor 0 = 12.
Proof. unfold annuity_factor. rewrite Rplus_0_r. simpl. ring. Qed.

Lemma annuity_factor_ge (m : R) : 0 <= m -> 12 <= annuity_factor m.
Proof.
  intros Hm. unfold annuity_factor.
  replace 12 with (INR (length (seq 1 12)) * 1) by (simpl; lra).
  rewrite <- Rsum_const. apply Rsum_le. intros j _. apply pow_R1_Rle. lra.
Qed.

Section YearClosedForm.

Variable rate : R.

Lemma months_portfolio (c : Cycle) (y n : nat) (tp oop : R) :
  fst (Nat.iter n (month_step rate c y) (tp, oop))
  = tp * (1 + rate) ^ n
    + contribution_of c y * Rsum (map (fun j => (1 + rate) ^ j) (seq 1 n)).
Proof.
  induction n as [|n IH].
  - simpl. ring.
  - change (Nat.iter (S n) (month_step rate c y) (tp, oop))
      with (month_step rate c y (Nat.iter n (month_step rate c y) (tp, oop))).
    destruct (Nat.iter n (month_step rate c y) (tp, oop)) as [tp' oop'].
    cbn [fst] in IH. rewrite geometric_step, month_step_spec.
    unfold Spec.month, Spec.grow, Spec.contribute, Spec.repay, contribution_of in *.
    destruct (y <? loan_repayment_years c)%nat,
             (y <? contribution_years c)%nat;
      cbn [fst snd]; rewrite IH; simpl; ring.
Qed.

Lemma year_record_closed_form (c : Cycle) (st : SimState) (y : nat) :
  let r := year_record rate c st y in
  portfolio_after r
  = portfolio_before r * (1 + rate) ^ 12 + contribution_of c y * annuity_factor rate
  /\ out_of_pocket_year r = 12 * monthly_cash c y.
Proof.
  intros r. subst r.
  destruct (year_record_fields rate c st y) as (Hb & Hm & _).
  split; [|apply year_out_of_pocket].
  apply (f_equal fst) in Hm. cbn [fst] in Hm. rewrite Hm, Hb.
  unfold run_months. apply months_portfolio.
Qed.

Lemma record_closed_form (cs : list Cycle) (st : SimState) (i : nat)
    (r : YearRecord) :
  nth_error (emit_cycles rate st cs) i = Some r ->
  exists k y c,
    locate cs i = Some (k, y) /\ nth_error cs k = Some c
    /\ portfolio_after r
       = portfolio_before r * (1 + rate) ^ 12
         + contribution_of c y * annuity_factor rate
    /\ out_of_pocket_year r = 12 * monthly_cash c y
    /\ roi_year r = (portfolio_after r - portfolio_before r) - out_of_pocket_year r
    /\ delta_year r = roi_year r - out_of_pocket_year r.
Proof.
  intros H.
  destruct (record_local rate _ _ _ _ H) as (k & y & c & Hl & Hc & _ & Hm & Hr & Hd).
  exists k, y, c. repeat apply conj; try assumption.
  - apply (f_equal fst) in Hm. cbn [fst] in Hm. rewrite Hm.
    unfold run_months. apply months_portfolio.
  - apply (f_equal snd) in Hm. cbn [snd] in Hm. rewrite Hm.
    unfold run_months. rewrite months_out_of_pocket. simpl. lra.
Qed.

End YearClosedForm.

(** X9. Each record in closed form, for an annual rate [a > -1] with
    monthly rate [m].  For year [y] of cycle [c], with [contribution] the
    [monthly_contribution] while [y < contribution_years] (else 0) and
    [repayment] the [m_repayment] while [y < loan_repayment_years] (else 0):
    [portfolio_after = portfolio_before * (1 + a)
     + contribution * ((1+m) + ... + (1+m)^12)],
    [out_of_pocket_year = 12 * (repayment + contribution)], and
    [roi_year = portfolio_before * a
     + contribution * ((1+m) + ... + (1+m)^12 - 12) - 12 * repayment]:
    a year's repayments are subtracted from its [roi_year]. *)
Theorem year_in_closed_form (cs : list Cycle) (a : R) (age : Z) (i : nat)
    (r : YearRecord) :
  -1 < a ->
  nth_error (res_annual_details (simulate_multi_cycle_strategy_detailed cs a age)) i
  = Some r ->
  exists k y c,
    locate cs i = Some (k, y) /\ nth_error cs k = Some c /\
    let m := annual_rate2mensual_rate a in
    let contribution :=
      if (y <? contribution_years c)%nat then monthly_contribution c else 0 in
    let repayment :=
      if (y <? loan_repayment_years c)%nat then m_repayment c else 0 in
    portfolio_after r
    = portfolio_before r * (1 + a) + contribution * annuity_factor m
    /\ out_of_pocket_year r = 12 * (repayment + contribution)
    /\ roi_year r
       = portfolio_before r * a + contribution * (annuity_factor m - 12)
         - 12 * repayment
    /\ delta_year r = roi_year r - 12 * (repayment + contribution).
Proof.
  intros Ha. rewrite simulated_details. intros H.
  destruct (record_closed_form _ _ _ _ _ H)
    as (k & y & c & Hl & Hc & Hpa & Hoop & Hroi & Hd).
  rewrite monthly_factor_pow12 in Hpa by assumption.
  unfold contribution_of in Hpa. unfold monthly_cash in Hoop.
  exists k, y, c. repeat apply conj; try assumption.
  - rewrite Hroi, Hpa, Hoop. ring.
  - rewrite Hd, Hoop. ring.
Qed.

(** The second year of [save_then_borrow], at 8%. *)
Lemma year_in_closed_form_witness :
  exists r,
    nth_error (res_annual_details
                 (simulate_multi_cycle_strategy_detailed save_then_borrow
                    (8 / 100) 30)) 1 = Some r
    /\ exists k y c,
         locate save_then_borrow 1 = Some (k, y)
         /\ nth_error save_then_borrow k = Some c
         /\ portfolio_after r
            = portfolio_before r * (1 + 8 / 100)
              + (if (y <? contribution_years c)%nat
                 then monthly_contribution c else 0)
                * annuity_factor (annual_rate2mensual_rate (8 / 100)).
Proof.
  eexists. split; [reflexivity|].
  destruct (year_in_closed_form save_then_borrow (8 / 100) 30 1 _
              ltac:(lra) eq_refl) as (k & y & c & Hl & Hc & Hpa & _).
  exists k, y, c. repeat split; assumption.
Defined.

(** ** Investing at rate 0 *)

Lemma repayment_without_interest (P : R) (n : nat) :
  (0 < n)%nat -> 12 * INR n * monthly_repayment P 0 (INR n) = P.
Proof.
  intros Hn. assert (HnR : 0 < INR n) by (apply lt_0_INR; assumption).
  rewrite monthly_repayment_straight_line.
  - rewrite py_int_months_of_years, <- INR_IZR_INZ, mult_INR.
    simpl INR. field. lra.
  - rewrite py_int_months_of_years. lia.
  - apply monthly_rate_of_zero.
Qed.

Lemma portfolio_after_years_at_zero (c : Cycle) (ys : list nat) (st : SimState) :
  total_portfolio (fold_left (year_step 0 c) ys st)
  = total_portfolio st + 12 * Rsum (map (contribution_of c) ys).
Proof.
  revert st. induction ys as [|y ys IH]; intros st.
  - simpl. lra.
  - cbn [fold_left map]. rewrite IH.
    change (total_portfolio (year_step 0 c st y))
      with (portfolio_after (year_record 0 c st y)).
    destruct (year_record_closed_form 0 c st y) as [Hpa _].
    destruct (year_record_fields 0 c st y) as (Hb & _).
    rewrite Hpa, Hb, annuity_factor_zero, Rplus_0_r, pow1.
    unfold Rsum. cbn [fold_right]. lra.
Qed.

Lemma portfolio_after_cycles_at_zero (cs : list Cycle) (st : SimState) :
  total_portfolio (run_cycles 0 st cs)
  = total_portfolio st + loan_sum cs
    + Rsum (map (fun c => 12 * INR (contribution_years c) * monthly_contribution c)
                cs).
Proof.
  revert st. induction cs as [|c cs IH]; intros st.
  - unfold loan_sum. simpl. lra.
  - change (run_cycles 0 st (c :: cs)) with (run_cycles 0 (cycle_step 0 st c) cs).
    rewrite IH. unfold cycle_step. rewrite portfolio_after_years_at_zero.
    unfold contribution_of. rewrite Rsum_window. unfold cycle_length_years.
    rewrite Nat.min_l by lia.
    unfold loan_sum, Rsum. cbn [map fold_right invest_loan total_portfolio]. lra.
Qed.

(** X10. At an investment rate of 0 the monthly rate is 0 and nothing
    grows: each year ends with [portfolio_before] plus its 12 contributions
    and has [roi_year = - 12 * repayment]; [final_portfolio] is the
    principal borrowed plus the contributions, and [final_net_gains] is
    the principal borrowed minus the repayments made, which is 0 when every
    cycle repays an interest-free loan over at least a year. *)
Theorem investing_at_zero (cs : list Cycle) (age : Z) :
  let res := simulate_multi_cycle_strategy_detailed cs 0 age in
  (forall i r,
      nth_error (res_annual_details res) i = Some r ->
      exists k y c,
        locate cs i = Some (k, y) /\ nth_error cs k = Some c
        /\ portfolio_after r = portfolio_before r + 12 * contribution_of c y
        /\ roi_year r
           = - (12 * (if (y <? loan_repayment_years c)%nat
                      then m_repayment c else 0)))
  /\ final_portfolio res
     = loan_sum cs
       + Rsum (map (fun c => 12 * INR (contribution_years c)
                             * monthly_contribution c) cs)
  /\ final_net_gains res
     = loan_sum cs
       - Rsum (map (fun c => 12 * INR (loan_repayment_years c) * m_repayment c) cs)
  /\ (Forall (fun c => repayment_consistent c /\ loan_interest_rate c = 0
                       /\ (0 < loan_repayment_years c)%nat) cs ->
      final_net_gains res = 0).
Proof.
  intros res. subst res. rewrite simulated_details.
  unfold simulate_multi_cycle_strategy_detailed.
  cbn [final_portfolio final_net_gains]. rewrite monthly_rate_of_zero.
  pose proof (portfolio_after_cycles_at_zero cs (init_state age)) as Htp.
  destruct (cycles_bookkeeping 0 cs (init_state age)) as (_ & _ & _ & Ht & _).
  rewrite cash_of_cycles in Ht.
  cbn [init_state total_portfolio total_external_investment] in Htp, Ht.
  assert (Hcash : Rsum (map cycle_cash cs)
                  = Rsum (map (fun c => 12 * INR (loan_repayment_years c)
                                        * m_repayment c) cs)
                    + Rsum (map (fun c => 12 * INR (contribution_years c)
                                          * monthly_contribution c) cs))
    by (unfold cycle_cash; apply Rsum_map_plus).
  assert (Hnet : total_portfolio (run_cycles 0 (init_state age) cs)
                 - total_external_investment (run_cycles 0 (init_state age) cs)
                 = loan_sum cs
                   - Rsum (map (fun c => 12 * INR (loan_repayment_years c)
                                         * m_repayment c) cs))
    by (rewrite Htp, Ht, Hcash; ring).
  repeat apply conj.
  - intros i r H.
    destruct (record_closed_form _ _ _ _ _ H)
      as (k & y & c & Hl & Hc & Hpa & Hoop & Hroi & _).
    rewrite annuity_factor_zero, Rplus_0_r, pow1 in Hpa.
    exists k, y, c. repeat apply conj; try assumption.
    + rewrite Hpa. ring.
    + rewrite Hroi, Hpa, Hoop. unfold monthly_cash, contribution_of. ring.
  - rewrite Htp. ring.
  - exact Hnet.
  - intros Hall. rewrite Hnet.
    enough (E : Rsum (map (fun c => 12 * INR (loan_repayment_years c)
                                    * m_repayment c) cs) = loan_sum cs)
      by (rewrite E; ring).
    clear - Hall. unfold loan_sum.
    induction Hall as [|c l (Hc & Hrate & Hpos) _ IH]; [reflexivity|].
    cbn [map]. unfold Rsum in *. cbn [fold_right]. rewrite IH.
    f_equal. rewrite Hc, Hrate. now apply repayment_without_interest.
Qed.

(** ** Strategies without repayment *)

Lemma Forall_firstn {A : Type} (P : A -> Prop) (n : nat) (l : list A) :
  Forall P l -> Forall P (firstn n l).
Proof.
  intros H. revert n. induction H as [|x l Hx _ IH]; intros [|n]; simpl;
    constructor; auto.
Qed.

Lemma Forall_skipn {A : Type} (P : A -> Prop) (n : nat) (l : list A) :
  Forall P l -> Forall P (skipn n l).
Proof.
  intros H. revert n. induction H as [|x l Hx Hl IH]; intros [|n]; simpl;
    try constructor; auto.
Qed.

Lemma loan_sum_nonneg (l : list Cycle) :
  Forall (fun c => 0 <= loan_amount c) l -> 0 <= loan_sum l.
Proof.
  unfold loan_sum, Rsum.
  induction 1 as [|c l Hc _ IH]; simpl; lra.
Qed.

Lemma loan_sum_zero (l : list Cycle) :
  Forall (fun c => loan_amount c = 0) l -> loan_sum l = 0.
Proof.
  unfold loan_sum, Rsum.
  induction 1 as [|c l Hc _ IH]; simpl; lra.
Qed.

(** X11. A strategy in which no cycle has a repayment period, with
    non-negative amounts and a non-negative investment rate, never loses:
    every [roi_year] is non-negative, every [net_gains_end_of_year] is
    non-negative, and the net gains never decrease from a year to the
    next. *)
Theorem gains_without_repayment (cs : list Cycle) (a : R) (age : Z) :
  Forall (fun c => cycle_nonneg c /\ loan_repayment_years c = 0%nat) cs ->
  0 <= a ->
  let details :=
    res_annual_details (simulate_multi_cycle_strategy_detailed cs a age) in
  forall i r,
    nth_error details i = Some r ->
    0 <= roi_year r
    /\ 0 <= net_gains_end_of_year r
    /\ (forall j r', i = S j -> nth_error details j = Some r' ->
        net_gains_end_of_year r' <= net_gains_end_of_year r).
Proof.
  intros Hcs Ha details. subst details. rewrite simulated_details.
  set (rate := annual_rate2mensual_rate a).
  set (recs := emit_cycles rate (init_state age) cs).
  assert (Hrate : 0 <= rate) by (apply monthly_rate_nonneg; assumption).
  assert (Hnn : Forall cycle_nonneg cs)
    by (eapply Forall_impl; [|exact Hcs]; intros c [H _]; exact H).
  assert (Hloans : Forall (fun c => 0 <= loan_amount c) cs)
    by (eapply Forall_impl; [|exact Hcs]; intros c [(H & _) _]; exact H).
  destruct (cycles_nonneg rate cs (init_state age) Hrate Hnn)
    as (_ & Hrecs & _); [simpl; lra | simpl; lra |].
  fold recs in Hrecs.
  (* the return of a year *)
  assert (Hroi : forall i r, nth_error recs i = Some r -> 0 <= roi_year r).
  { intros i r H.
    destruct (record_closed_form _ _ _ _ _ H)
      as (k & y & c & _ & Hc & Hpa & Hoop & Hr & _).
    assert (Hin : In c cs) by (eapply nth_error_In; eassumption).
    rewrite Forall_forall in Hcs. destruct (Hcs c Hin) as ((_ & Hmc & _) & Hz).
    rewrite Forall_forall in Hrecs.
    destruct (Hrecs r (nth_error_In _ _ H)) as (_ & Hpb & _).
    assert (Hc0 : 0 <= contribution_of c y)
      by (unfold contribution_of; destruct (y <? contribution_years c)%nat; lra).
    assert (Hcash : monthly_cash c y = contribution_of c y).
    { unfold monthly_cash, contribution_of. rewrite Hz. simpl. lra. }
    pose proof (annuity_factor_ge rate Hrate) as Haf.
    assert (1 <= (1 + rate) ^ 12) by (apply pow_R1_Rle; lra).
    rewrite Hr, Hpa, Hoop, Hcash. nra. }
  (* net gains, year after year *)
  assert (Hstep : forall i r, nth_error recs i = Some r ->
            match i with
            | O => 0 <= net_gains_end_of_year r
            | S j => exists r', nth_error recs j = Some r'
                       /\ net_gains_end_of_year r' <= net_gains_end_of_year r
            end).
  { intros i r H. pose proof (Hroi i r H) as Hr0.
    destruct (record_local rate _ _ _ _ H) as (_ & _ & _ & _ & _ & _ & _ & Hroi_eq & _).
    destruct (record_chain rate _ _ _ _ H) as (k & _ & Hlink).
    destruct i as [|j].
    - destruct Hlink as (Hb & Hn & _).
      cbn [init_state total_portfolio total_external_investment] in Hb, Hn.
      assert (0 <= loan_sum (firstn (S k) cs))
        by (apply loan_sum_nonneg, Forall_firstn; assumption).
      lra.
    - destruct Hlink as (r' & k' & Hr' & _ & _ & Hb & Hn & _).
      exists r'. split; [assumption|].
      assert (0 <= loan_sum (skipn (S k') (firstn (S k) cs)))
        by (apply loan_sum_nonneg, Forall_skipn, Forall_firstn; assumption).
      lra. }
  assert (Hnet : forall i r, nth_error recs i = Some r ->
                             0 <= net_gains_end_of_year r).
  { induction i as [|j IH]; intros r H.
    - exact (Hstep 0%nat r H).
    - destruct (Hstep (S j) r H) as (r' & Hr' & Hle).
      specialize (IH r' Hr'). lra. }
  intros i r H. repeat apply conj.
  - exact (Hroi i r H).
  - exact (Hnet i r H).
  - intros j r' -> Hr'.
    destruct (Hstep (S j) r H) as (r0 & Hr0 & Hle).
    rewrite Hr' in Hr0. injection Hr0 as <-. exact Hle.
Qed.

(** A year of 100 per month, at 8%. *)
Lemma gains_without_repayment_witness :
  exists r,
    nth_error (res_annual_details
                 (simulate_multi_cycle_strategy_detailed contribution_only
                    (8 / 100) 30)) 0 = Some r
    /\ 0 <= roi_year r /\ 0 <= net_gains_end_of_year r.
Proof.
  eexists. split; [reflexivity|].
  assert (H : Forall (fun c => cycle_nonneg c /\ loan_repayment_years c = 0%nat)
                     contribution_only).
  { repeat constructor; cbn [loan_amount monthly_contribution m_repayment];
      try rewrite no_month_of_zero_years; lra. }
  destruct (gains_without_repayment contribution_only (8 / 100) 30 H
              ltac:(lra) 0%nat _ eq_refl) as (H1 & H2 & _).
  split; assumption.
Defined.

(** ** The two scenarios side by side *)

Lemma total_years_mirror (A : list Cycle) :
  total_years (dca_mirror A) = total_years A.
Proof.
  rewrite dca_mirror_map. unfold total_years. rewrite map_map.
  reflexivity.
Qed.

Lemma mirror_never_borrows (A : list Cycle) :
  Forall (fun c => loan_amount c = 0) (dca_mirror A).
Proof.
  rewrite dca_mirror_map. apply Forall_map. apply Forall_forall.
  intros c _. reflexivity.
Qed.

(** X12. The DCA scenario derived from a scenario has the same number of
    simulated years and, from the same start age, the same ages, so that
    the two chart series are aligned; it never borrows, so its first year
    starts from an empty portfolio, every later year starts from the
    previous [portfolio_after], and its net gains obey
    [net_gains_end_of_year[i+1] = net_gains_end_of_year[i] + roi_year[i+1]]
    at every index. *)
Theorem mirror_simulation (A : list Cycle) (a1 a2 : R) (age : Z) :
  let B := dca_mirror A in
  let res_A := simulate_multi_cycle_strategy_detailed A a1 age in
  let res_B := simulate_multi_cycle_strategy_detailed B a2 age in
  total_years B = total_years A
  /\ res_ages res_B = res_ages res_A
  /\ length (res_annual_details res_B) = length (res_annual_details res_A)
  /\ loan_sum B = 0
  /\ (forall r, nth_error (res_annual_details res_B) 0 = Some r ->
                portfolio_before r = 0)
  /\ (forall i r' r,
        nth_error (res_annual_details res_B) i = Some r' ->
        nth_error (res_annual_details res_B) (S i) = Some r ->
        portfolio_before r = portfolio_after r'
        /\ net_gains_end_of_year r = net_gains_end_of_year r' + roi_year r).
Proof.
  intros B res_A res_B. subst res_A res_B.
  pose proof (total_years_mirror A) as Hy. fold B in Hy.
  pose proof (mirror_never_borrows A) as Hl. fold B in Hl.
  rewrite !simulated_ages, !simulated_details, !length_emit_cycles, Hy.
  repeat apply conj; try reflexivity.
  - now apply loan_sum_zero.
  - intros r H.
    destruct (record_chain _ _ _ _ _ H) as (k & _ & Hb & _).
    rewrite Hb, (loan_sum_zero (firstn (S k) B)) by now apply Forall_firstn.
    simpl. lra.
  - intros i r' r Hr' Hr.
    destruct (record_chain _ _ _ _ _ Hr)
      as (k & _ & r0 & k' & Hr0 & _ & _ & Hb & Hn & _).
    rewrite Hr' in Hr0. injection Hr0 as <-.
    destruct (record_local _ _ _ _ _ Hr) as (_ & _ & _ & _ & _ & _ & _ & Hroi & _).
    rewrite (loan_sum_zero (skipn (S k') (firstn (S k) B))) in Hb
      by now apply Forall_skipn, Forall_firstn.
    split; [lra|]. rewrite Hroi. lra.
Qed.

(** ** Cycles entered through the form *)

Lemma mirror_is_consistent (c : Cycle) : repayment_consistent (dca_cycle c).
Proof.
  unfold repayment_consistent. cbn [dca_cycle m_repayment loan_amount
    loan_interest_rate loan_repayment_years].
  now rewrite no_month_of_zero_years.
Qed.

(** X13. The derived key [m_repayment] stays the payment of the cycle's
    loan, [monthly_repayment(loan_amount, loan_interest_rate,
    loan_repayment_years)], through every way the program edits a cycle
    list: adding a cycle, replacing one, deleting one, and deriving the
    DCA scenario. *)
Theorem edits_keep_repayment_consistent (l : list Cycle) (la lir : R)
    (lry : nat) (mc : R) (cy : nat) :
  Forall repayment_consistent l ->
  Forall repayment_consistent (add_cycle l la lir lry mc cy)
  /\ (forall i l', update_cycle l i la lir lry mc cy = Some l' ->
                   Forall repayment_consistent l')
  /\ (forall i l', pop_cycle l i = Some l' -> Forall repayment_consistent l')
  /\ Forall repayment_consistent (dca_mirror l).
Proof.
  intros Hl. repeat apply conj.
  - unfold add_cycle. apply Forall_app. split; [assumption|].
    constructor; [reflexivity | constructor].
  - intros i l'. unfold update_cycle.
    destruct (i <? length l)%nat; [|discriminate]. intros [= <-].
    apply Forall_app. split; [now apply Forall_firstn|].
    constructor; [reflexivity | exact (Forall_skipn _ (S i) l Hl)].
  - intros i l'. unfold pop_cycle.
    destruct (i <? length l)%nat; [|discriminate]. intros [= <-].
    apply Forall_app.
    split; [now apply Forall_firstn | exact (Forall_skipn _ (S i) l Hl)].
  - rewrite dca_mirror_map. apply Forall_map, Forall_forall.
    intros c _. apply mirror_is_consistent.
Qed.

(** Adding a second cycle to [loan_only]. *)
Lemma edits_keep_repayment_consistent_witness :
  Forall repayment_consistent (add_cycle loan_only 1000 0 1 50 2).
Proof.
  apply (edits_keep_repayment_consistent loan_only 1000 0 1 50 2).
  repeat constructor.
Defined.

(** X14. Cycles within the bounds of the form, with a consistent
    [m_repayment], have non-negative amounts (the repayment included), and
    so have their DCA mirrors, which moreover have no repayment period. *)
Theorem form_cycles_are_nonneg (A : list Cycle) :
  Forall (fun c => within_form_bounds c /\ repayment_consistent c) A ->
  Forall cycle_nonneg A
  /\ Forall (fun c => cycle_nonneg c /\ loan_repayment_years c = 0%nat)
            (dca_mirror A).
Proof.
  intros HA.
  assert (Hnn : Forall cycle_nonneg A).
  { eapply Forall_impl; [|exact HA].
    intros c ((Hla & Hlir & Hmc & _) & Hc). unfold cycle_nonneg.
    repeat apply conj; try assumption.
    rewrite Hc. apply monthly_repayment_nonneg; [assumption | lra | apply pos_INR]. }
  split; [assumption|].
  rewrite dca_mirror_map. apply Forall_map.
  eapply Forall_impl; [|exact Hnn].
  intros c (_ & _ & Hmr). unfold cycle_nonneg.
  cbn [dca_cycle loan_amount monthly_contribution m_repayment loan_repayment_years].
  repeat apply conj; try reflexivity; lra.
Qed.

(** The default cycle of the form. *)
Lemma form_cycles_are_nonneg_witness :
  Forall cycle_nonneg (add_cycle [] 100000 (6 / 100) 20 500 20).
Proof.
  apply (form_cycles_are_nonneg (add_cycle [] 100000 (6 / 100) 20 500 20)).
  repeat constructor; cbn [loan_amount loan_interest_rate monthly_contribution
    loan_repayment_years contribution_years]; try lra; lia.
Defined.

Lemma nth_error_splice {A : Type} (l : list A) (i j : nat) (mid : list A) :
  (i <= length l)%nat ->
  nth_error (firstn i l ++ mid ++ skipn (i + 1) l) j
  = if (j <? i)%nat then nth_error l j
    else if (j <? i + length mid)%nat then nth_error mid (j - i)
    else nth_error l (j - length mid + 1).
Proof.
  intros Hi.
  assert (Hlen : length (firstn i l) = i) by (rewrite length_firstn; lia).
  rewrite nth_error_app, Hlen.
  destruct (Nat.ltb_spec j i) as [Hji|Hji].
  - rewrite nth_error_firstn. apply Nat.ltb_lt in Hji. now rewrite Hji.
  - rewrite nth_error_app.
    destruct (Nat.ltb_spec (j - i) (length mid)) as [Hm|Hm];
      destruct (Nat.ltb_spec j (i + length mid)) as [Hm'|Hm']; try lia.
    + reflexivity.
    + rewrite nth_error_skipn. f_equal. lia.
Qed.

(** X15. An edit touches one position.  [update_cycle] at an index inside
    the list keeps the length, puts the new cycle at that index and leaves
    every other position as it was; deleting at an index inside the list
    shortens it by one, keeps the positions before the index and shifts the
    later ones down; both raise [IndexError] at an index past the end. *)
Theorem edits_touch_one_position (l : list Cycle) (i : nat) (la lir : R)
    (lry : nat) (mc : R) (cy : nat) :
  let c := mkCycle la lir lry mc cy (monthly_repayment la lir (INR lry)) in
  ((i < length l)%nat ->
   exists l',
     update_cycle l i la lir lry mc cy = Some l'
     /\ length l' = length l
     /\ nth_error l' i = Some c
     /\ forall j, j <> i -> nth_error l' j = nth_error l j)
  /\ ((length l <= i)%nat -> update_cycle l i la lir lry mc cy = None)
  /\ ((i < length l)%nat ->
      exists l',
        pop_cycle l i = Some l'
        /\ S (length l') = length l
        /\ (forall j, (j < i)%nat -> nth_error l' j = nth_error l j)
        /\ (forall j, (i <= j)%nat -> nth_error l' j = nth_error l (S j)))
  /\ ((length l <= i)%nat -> pop_cycle l i = None).
Proof.
  intros c. repeat apply conj.
  - intros Hi. unfold update_cycle. apply Nat.ltb_lt in Hi as Hb. rewrite Hb.
    eexists. split; [reflexivity|]. fold c.
    assert (E : forall j,
               nth_error (firstn i l ++ c :: skipn (S i) l) j
               = if (j <? i)%nat then nth_error l j
                 else if (j <? i + 1)%nat then nth_error [c] (j - i)
                 else nth_error l (j - 1 + 1)).
    { intros j. replace (S i) with (i + 1)%nat by lia.
      apply (nth_error_splice l i j [c]). lia. }
    repeat apply conj.
    + rewrite length_app, length_firstn. cbn [length]. rewrite length_skipn. lia.
    + rewrite E, Nat.ltb_irrefl.
      replace (i <? i + 1)%nat with true by (symmetry; apply Nat.ltb_lt; lia).
      now rewrite Nat.sub_diag.
    + intros j Hj. rewrite E.
      destruct (Nat.ltb_spec j i); [reflexivity|].
      destruct (Nat.ltb_spec j (i + 1)); [lia|]. f_equal. lia.
  - intros Hi. unfold update_cycle. apply Nat.ltb_ge in Hi. now rewrite Hi.
  - intros Hi. unfold pop_cycle. apply Nat.ltb_lt in Hi as Hb. rewrite Hb.
    eexists. split; [reflexivity|].
    assert (E : forall j,
               nth_error (firstn i l ++ skipn (S i) l) j
               = if (j <? i)%nat then nth_error l j else nth_error l (j + 1)).
    { intros j. replace (S i) with (i + 1)%nat by lia.
      pose proof (nth_error_splice l i j [] ltac:(lia)) as H.
      cbn [app length] in H. rewrite H.
      destruct (Nat.ltb_spec j i); [reflexivity|].
      destruct (Nat.ltb_spec j (i + 0)); [lia|]. f_equal. lia. }
    repeat apply conj.
    + rewrite length_app, length_firstn, length_skipn. lia.
    + intros j Hj. rewrite E. apply Nat.ltb_lt in Hj. now rewrite Hj.
    + intros j Hj. rewrite E. apply Nat.ltb_ge in Hj. rewrite Hj. f_equal. lia.
  - intros Hi. unfold pop_cycle. apply Nat.ltb_ge in Hi. now rewrite Hi.
Qed.

(** ** The detail tables of the comparison *)

(** X16. In the comparison block the four summary values bound for a
    scenario are those that the simulator returns, whether or not the
    scenario is empty, but [annual_details] is bound only for a non-empty
    scenario: the detail tables are built from the two simulations when
    both scenarios have a cycle, and reading them raises [NameError] on
    [annual_details_s1] when scenario 1 is empty, else on
    [annual_details_s2] when scenario 2 is empty.  With the DCA scenario
    derived from scenario 1, the tables are built exactly when scenario 1
    has a cycle. *)
Theorem detail_tables_need_both_scenarios (ss : Session) (rate1 : R) (age1 : Z)
    (rate2 : R) (age2 : Z) :
  let A := scenario1_cycles ss in
  let B := scenario2_cycles ss in
  let b := scenario_bindings A rate1 age1 in
  let res := simulate_multi_cycle_strategy_detailed A rate1 age1 in
  (b_ages b = res_ages res /\ b_net_gains b = res_net_gains_annual res
   /\ b_final_portfolio b = final_portfolio res
   /\ b_final_net_gains b = final_net_gains res
   /\ injected b = Rsum (map cycle_cash A))
  /\ (A = [] ->
      detail_tables ss rate1 age1 rate2 age2 = inl (NameError annual_details_s1))
  /\ (A <> [] -> B = [] ->
      detail_tables ss rate1 age1 rate2 age2 = inl (NameError annual_details_s2))
  /\ (A <> [] -> B <> [] ->
      detail_tables ss rate1 age1 rate2 age2
      = inr (res_annual_details res,
             res_annual_details
               (simulate_multi_cycle_strategy_detailed B rate2 age2)))
  /\ (A <> [] ->
      detail_tables (build_dca_cycles_from_lumpsum ss) rate1 age1 rate2 age2
      = inr (res_annual_details res,
             res_annual_details
               (simulate_multi_cycle_strategy_detailed (map dca_cycle A)
                  rate2 age2)))
  /\ (A = [] ->
      detail_tables (build_dca_cycles_from_lumpsum ss) rate1 age1 rate2 age2
      = inl (NameError annual_details_s1)).
Proof.
  intros A B b res. subst b res.
  assert (Hmirror : scenario2_cycles (build_dca_cycles_from_lumpsum ss)
                    = map dca_cycle A).
  { unfold build_dca_cycles_from_lumpsum. cbn [scenario2_cycles].
    now rewrite fold_append_map. }
  repeat apply conj.
  - destruct A; reflexivity.
  - destruct A; reflexivity.
  - destruct A; reflexivity.
  - destruct A as [|c cs]; [|reflexivity].
    unfold simulate_multi_cycle_strategy_detailed. simpl. lra.
  - destruct A as [|c cs] eqn:EA.
    + unfold injected. simpl. lra.
    + unfold injected. cbn [scenario_bindings b_final_portfolio b_final_net_gains].
      apply simulated_injected.
  - unfold detail_tables. fold A. now intros ->.
  - unfold detail_tables. fold A B. intros HA ->.
    destruct A as [|c cs]; [contradiction|]. reflexivity.
  - unfold detail_tables. fold A B. intros HA HB.
    destruct A as [|c cs]; [contradiction|].
    destruct B as [|c' cs']; [contradiction|]. reflexivity.
  - unfold detail_tables. rewrite Hmirror.
    change (scenario1_cycles (build_dca_cycles_from_lumpsum ss)) with A.
    intros HA. destruct A as [|c cs]; [contradiction|]. reflexivity.
  - unfold detail_tables.
    change (scenario1_cycles (build_dca_cycles_from_lumpsum ss)) with A.
    now intros ->.
Qed.
